(** * Two-way recall for the DocumentDB game search notebooks

    A shallow embedding of [similarity_search], the one function of the two
    notebooks (hybrid-retrieval/..._en.ipynb and "Two-way recall"/....ipynb)
    that carries logic: it translates the query, embeds it, runs a vector
    search and a text search, merges the two hit lists with a cap of two
    distinct names, and asks the model for one recommendation per kept hit.
    Settings of the plot ([plt.rcParams]) are left out; they reach nothing
    the function computes or sends.

    The two notebooks differ only in the wording of their prompts; the
    wording is gathered in a [notebook] record with one value per file. *)

From Stdlib Require Import PrimFloat.
From stdpp Require Import gmap strings list.

Local Abbreviation length := List.length.

(** ** Documents

    A hit is the Python dict pymongo returns for one stored record. The
    ingestion cell stores the keys name, descriptions, recommendation, url
    and descriptions_embeddings for every record (descriptions_en too in the
    Chinese notebook). The text search adds _id and the projected textScore
    under "score"; the vector search projects _id away and carries no score
    key. *)

Record doc := {
  _id : option string;
  name : string;
  descriptions : string;
  descriptions_en : option string;
  recommendation : string;
  url : string;
  descriptions_embeddings : list float;
  score : option float
}.

(** [str(item['name'])]: the name is stored as a string, on which Python's
    [str] is the identity. *)
Definition str (s : string) : string := s.
Arguments str : simpl never.

(** ** The merge (source: "merge two-way recall result") *)

(** [merged_list.append(doc)] *)
Definition append (merged_list : list doc) (d : doc) : list doc :=
  merged_list ++ [d].

(** [merged_list = []; for doc in tsr: ...append(doc); for doc in r: ...append(doc)] *)
Definition build_merged_list (tsr r : list doc) : list doc :=
  fold_left append r (fold_left append tsr []).

(** One turn of [for item in merged_list], on the two accumulators
    [unique_set] and [result]. The source writes the cap as the literal 2;
    it is the parameter [cap] here, and [similarity_search] passes 2. *)
Definition dedup_step (cap : nat) (acc : gset string * list doc) (item : doc)
  : gset string * list doc :=
  let '(unique_set, result) := acc in
  let dict_str := str (name item) in
  if bool_decide (dict_str ∉ unique_set) && (length result <? cap)%nat
  then (unique_set ∪ {[dict_str]}, result ++ [item])
  else (unique_set, result).

(** [unique_set = set(); result = []; for item in merged_list: ...] *)
Definition dedup_loop (cap : nat) (merged_list : list doc) : gset string * list doc :=
  fold_left (dedup_step cap) merged_list (∅, []).

Definition merge (cap : nat) (tsr r : list doc) : list doc :=
  (dedup_loop cap (build_merged_list tsr r)).2.

(** The names of a list of hits, in order. *)
Definition names (l : list doc) : list string := map name l.

(** The distinct identity keys of a list of hits. *)
Definition distinct_names (l : list doc) : gset string :=
  list_to_set (map (fun d => str (name d)) l).

(** The first hit of [l] that carries the identity key [k]. *)
Definition first_hit (k : string) (l : list doc) : option doc :=
  find (λ x, String.eqb (str (name x)) k) l.

(** What holds of the accumulators [unique_set] and [result] once the walk
    has passed the hits [seen]. *)
Record merge_inv (cap : nat) (seen : list doc) (acc : gset string * list doc)
  : Prop := {
  inv_set : acc.1 = distinct_names acc.2;
  inv_nodup : NoDup (names acc.2);
  inv_cap : length acc.2 ≤ cap;
  inv_sub : sublist acc.2 seen;
  inv_open : length acc.2 < cap → acc.1 = distinct_names seen;
  inv_first : ∀ d, d ∈ acc.2 → first_hit (str (name d)) seen = Some d
}.

(** ** The reference algorithm of the specification

    "Walk the concatenated sequence once, maintaining a set of identity keys
    already emitted. For each item, if its identity key has not been
    emitted, emit it and mark it emitted; stop scanning as soon as N distinct
    items have been emitted." [budget] is the number of items still to emit;
    the scan stops when it reaches zero. *)
Fixpoint reference_scan (l : list doc) (budget : nat) (emitted : gset string)
  : list doc :=
  match l with
  | [] => []
  | item :: rest =>
      match budget with
      | 0 => []
      | S budget' =>
          if bool_decide (name item ∈ emitted)
          then reference_scan rest budget emitted
          else item :: reference_scan rest budget' (emitted ∪ {[name item]})
      end
  end.

Definition reference_merge (N : nat) (lexical vector : list doc) : list doc :=
  reference_scan (lexical ++ vector) N ∅.

(** ** External calls

    [similarity_search] talks to Bedrock (the Claude model and the Titan
    embedding model), to DocumentDB, to the web server holding the images and
    to the notebook's output. Each call is recorded, in order, with what it
    returned or raised. *)

(** A raised Python exception, by the name of its class. *)
Inductive exn := Raised (cls : string).

(** What [response_body.get("content")[0]['text']] gives on a decoded model
    response: the text, or the exception of a body that has no such entry. *)
Definition response_body : Type := exn + string.

Inductive event :=
| invoke_model (prompt : string) (out : exn + response_body)
| embed_query (text : string) (out : exn + list float)
| aggregate (vector : list float) (similarity : string) (k : nat)
    (out : exn + list doc)
| find_text (search : string) (out : exn + list doc)
| requests_get (u : string) (out : exn + unit)
| imread (u : string) (out : exn + unit)
| print (s : string)
| print_elapsed
| imshow.

(** The services. Each answer may depend on everything that happened before
    the call, so the same request need not get the same answer twice. *)
Record env := {
  bedrock_invoke_model : list event → string → exn + response_body;
  bedrock_embed_query : list event → string → exn + list float;
  collection_aggregate : list event → list float → string → nat → exn + list doc;
  collection_find : list event → string → exn + list doc;
  http_get : list event → string → exn + unit;
  skimage_imread : list event → string → exn + unit
}.

(** A computation runs against the services, from the calls made so far, and
    ends with a value or an exception and the calls made by then. *)
Definition M (A : Type) : Type := env → list event → (exn + A) * list event.

#[global] Instance M_ret : MRet M := λ A a _ t, (inr a, t).

#[global] Instance M_bind : MBind M := λ A B f m w t,
  match m w t with
  | (inr a, t') => f a w t'
  | (inl e, t') => (inl e, t')
  end.

Definition raise {A} (e : exn) : M A := λ _ t, (inl e, t).

Definition emit (e : event) : M unit := λ _ t, (inr tt, t ++ [e]).

Definition call {A} (ask : env → list event → exn + A) (record : exn + A → event)
  : M A :=
  λ w t, let out := ask w t in (out, t ++ [record out]).

Ltac unfold_M := unfold mbind, M_bind, mret, M_ret, call, emit, raise.

(** [for x in l: body], threading the variables the body assigns. *)
Fixpoint for_each {A S} (l : list A) (body : A → S → M S) (s : S) : M S :=
  match l with
  | [] => mret s
  | x :: rest => s' ← body x s; for_each rest body s'
  end.

(** ** The notebook's functions *)

(** The prompt wording of one notebook. *)
Record notebook := {
  translate_instruction : string;
  template_head : string;
  template_tail : string;
  label_name : string;
  label_descriptions : string;
  label_recommendation : string
}.

Definition banner : string :=
  "----------------------------------------- OutPut -----------------------------------------".

(** [timer_llm_claude3(prompt, if_print=1)] *)
Definition timer_llm_claude3 (prompt : string) (if_print : nat) : M string :=
  response_body ← call (λ w t, bedrock_invoke_model w t prompt) (invoke_model prompt);
  (if Nat.eqb if_print 1 then emit (print banner);; emit print_elapsed else mret tt);;
  match response_body with
  | inr text => mret text
  | inl e => raise e
  end.

(** [generate_embeddings(data)] *)
Definition generate_embeddings (data : string) : M (list float) :=
  call (λ w t, bedrock_embed_query w t data) (embed_query data).

(** [multi_var_prompt.format(instructions=...)] *)
Definition format (nb : notebook) (instructions : string) : string :=
  template_head nb +:+ instructions +:+ template_tail nb.

(** [s.split(sep)[0]] for a one-character separator. *)
Fixpoint split_0 (sep : Ascii.ascii) (s : string) : string :=
  match s with
  | EmptyString => EmptyString
  | String c s' => if Ascii.eqb c sep then EmptyString else String c (split_0 sep s')
  end.

Definition question_mark : Ascii.ascii := Ascii.ascii_of_nat 63.

(** The three loops under "merge two-way recall result", on the hits the
    two cursors have delivered; [merge_lines] below has them on the cursors
    themselves. *)
Definition merge_block (cap : nat) (tsr r : list doc) : M (list doc) :=
  merged_list ← for_each tsr (λ d merged_list, mret (append merged_list d)) [];
  merged_list ← for_each r (λ d merged_list, mret (append merged_list d)) merged_list;
  acc ← for_each merged_list (λ item acc, mret (dedup_step cap acc item)) (∅, []);
  mret acc.2.

(** The prompt built for one kept hit. *)
Definition recommendation_prompt (nb : notebook) (x : doc) : string :=
  format nb (label_name nb +:+ name x +:+ label_descriptions nb +:+ descriptions x
             +:+ label_recommendation nb +:+ recommendation x).

(** The body of [for x in result]. *)
Definition recommend (nb : notebook) (x : doc) : M unit :=
  let prompt := recommendation_prompt nb x in
  response ← timer_llm_claude3 prompt 1;
  emit (print response);;
  let url := split_0 question_mark (url x) in
  urldata ← call (λ w t, http_get w t url) (requests_get url);
  a ← call (λ w t, skimage_imread w t url) (imread url);
  emit imshow.

Definition recommend_all (nb : notebook) (result : list doc) : M unit :=
  for_each result (λ x _, recommend nb x) tt.

(** The calls up to the two hit lists. [collection.aggregate] sends its
    command at once; [collection.find] builds a cursor that sends the query
    when [for doc in tsr] first asks it for a document, which is the next
    thing that happens. *)
Definition retrieve (nb : notebook) (search_text : string)
  : M (list doc * list doc) :=
  en_response ← timer_llm_claude3 (translate_instruction nb +:+ search_text) 1;
  emit (print en_response);;
  let data_inputs := search_text in
  res1 ← generate_embeddings data_inputs;
  r ← call (λ w t, collection_aggregate w t res1 "euclidean" 2)
            (aggregate res1 "euclidean" 2);
  tsr ← call (λ w t, collection_find w t en_response) (find_text en_response);
  mret (tsr, r).

(** [similarity_search(search_text)] *)
Definition similarity_search (nb : notebook) (search_text : string) : M unit :=
  hits ← retrieve nb search_text;
  result ← merge_block 2 hits.1 hits.2;
  recommend_all nb result.

(** ** The merge lines on the cursors

    When the merge lines start, [r] is the command cursor that
    [collection.aggregate] returned, whose command has run and whose hits
    are in hand, and [tsr] is the cursor that [collection.find(...).sort(...)]
    built, which has sent nothing yet: it sends its query when [for doc in
    tsr] first asks it for a document. *)
Inductive cursor :=
| find_cursor (search : string)
| command_cursor (batch : list doc).

(** The documents a [for doc in cursor] loop goes through; asking the
    cursor of [find] for them is what sends the text query. *)
Definition documents (c : cursor) : M (list doc) :=
  match c with
  | find_cursor search =>
      call (λ w t, collection_find w t search) (find_text search)
  | command_cursor batch => mret batch
  end.

(** The lines from [merged_list = []] to [result.append(item)], on the two
    cursors. *)
Definition merge_lines (cap : nat) (tsr r : cursor) : M (list doc) :=
  merged_list ← (docs ← documents tsr;
                 for_each docs (λ d merged_list, mret (append merged_list d)) []);
  merged_list ← (docs ← documents r;
                 for_each docs (λ d merged_list, mret (append merged_list d))
                   merged_list);
  acc ← for_each merged_list (λ item acc, mret (dedup_step cap acc item)) (∅, []);
  mret acc.2.

(** [similarity_search(search_text)], statement by statement, with the two
    cursors as the source holds them. *)
Definition similarity_search_on_cursors (nb : notebook) (search_text : string)
  : M unit :=
  en_response ← timer_llm_claude3 (translate_instruction nb +:+ search_text) 1;
  emit (print en_response);;
  let data_inputs := search_text in
  res1 ← generate_embeddings data_inputs;
  batch ← call (λ w t, collection_aggregate w t res1 "euclidean" 2)
               (aggregate res1 "euclidean" 2);
  let r := command_cursor batch in
  let tsr := find_cursor en_response in
  result ← merge_lines 2 tsr r;
  recommend_all nb result.

(** The wording of hybrid-retrieval/genai-docdb-similiarity-search-gaming_en.ipynb *)
Definition notebook_en : notebook := {|
  translate_instruction :=
    "You are a translator, translate the following into English, without any additional rhetoric, just translate. In the translated content, remove the word game：";
  template_head := "
Human:
You are an excellent game recommender and we need you to provide summaries and recommendations for games

<Objective>
- Please include the game titles and game categories in your summaries and recommendations
- Please provide game descriptions and perform optimized summarization for them
- Please specify the hardware configurations required to run the games
- Evaluate the suitability of the games for underage players
</Objective>

<instructions>
";
  template_tail := "
</instructions>
Your objective is to determine based on the goals specified in<Objective>, List the game titles, game categories, game descriptions, and user's system configurations specified in <instructions>, and determine whether each game is suitable for minors, no additional irrelevant text content is required

Assistant:";
  label_name := "game name:";
  label_descriptions := ".
Game Description:";
  label_recommendation := ".
Hardware configuration："
|}.

(** The wording of Two-way recall/genai-docdb-similiarity-search-gaming.ipynb *)
Definition notebook_zh : notebook := {|
  translate_instruction :=
    "你是一位翻译人员，将以下翻译成英文，不要多余的话术，只要翻译即可，翻译后的内容需要去掉game这个单词：";
  template_head := "
Human:
你是一个优秀的游戏推荐员，需要你进行游戏的总结推荐

<Objective>
- 带上游戏名称和游戏类别
- 附上游戏介绍，需要进行优化总结
- 指出玩该游戏需要的主机配置
- 判断是否适合未成年人玩
</Objective>

<instructions>
";
  template_tail := "
</instructions>
你的目标是根据<Objective>里的目标，列出<instructions>里的游戏名称，游戏类别，游戏介绍，用户的主机配置并判断该游戏是否适合未成年人，不需要有其他无关的文字内容

Assistant:";
  label_name := "游戏名称:";
  label_descriptions := ".
游戏描述:";
  label_recommendation := ".
主机配置："
|}.

(** The model calls among some events, each with its prompt and what came
    back. *)
Definition model_calls (evs : list event) : list (string * (exn + response_body)) :=
  flat_map (λ ev, match ev with
                  | invoke_model prompt out => [(prompt, out)]
                  | _ => []
                  end) evs.

(** The calls made to embed or to search. *)
Definition is_search_call (ev : event) : bool :=
  match ev with
  | embed_query _ _ | aggregate _ _ _ _ | find_text _ _ => true
  | _ => false
  end.

(** The calls a computation makes when started with none made before. *)
Definition calls {A} (m : M A) (w : env) : list event := (m w []).2.
Definition outcome {A} (m : M A) (w : env) : exn + A := (m w []).1.

(** ** The shapes of a run

    What a run of each part of [similarity_search] can leave behind: the
    outcome and, in order, the calls it added. *)

(** The exception of a call that raised. *)
Definition failure (ev : event) : option exn :=
  match ev with
  | invoke_model _ (inl e) | embed_query _ (inl e) | aggregate _ _ _ (inl e)
  | find_text _ (inl e) | requests_get _ (inl e) | imread _ (inl e) => Some e
  | _ => None
  end.

Definition is_model_call (ev : event) : bool :=
  match ev with invoke_model _ _ => true | _ => false end.

Definition is_embed_call (ev : event) : bool :=
  match ev with embed_query _ _ => true | _ => false end.

Definition is_database_call (ev : event) : bool :=
  match ev with aggregate _ _ _ _ | find_text _ _ => true | _ => false end.

Definition is_image_call (ev : event) : bool :=
  match ev with requests_get _ _ | imread _ _ => true | _ => false end.

Definition count_calls (p : event → bool) (evs : list event) : nat :=
  length (List.filter p evs).

(** The lines [timer_llm_claude3] prints when [if_print] is 1. *)
Definition timer_lines : list event := [print banner; print_elapsed].

Inductive retrieve_shape (nb : notebook) (search_text : string)
  : exn + (list doc * list doc) → list event → Prop :=
| translation_raised e :
    retrieve_shape nb search_text (inl e)
      [invoke_model (translate_instruction nb +:+ search_text) (inl e)]
| translation_unread e :
    retrieve_shape nb search_text (inl e)
      (invoke_model (translate_instruction nb +:+ search_text) (inr (inl e))
       :: timer_lines)
| embedding_raised en e :
    retrieve_shape nb search_text (inl e)
      (invoke_model (translate_instruction nb +:+ search_text) (inr (inr en))
       :: timer_lines ++ [print en; embed_query search_text (inl e)])
| vector_search_raised en res1 e :
    retrieve_shape nb search_text (inl e)
      (invoke_model (translate_instruction nb +:+ search_text) (inr (inr en))
       :: timer_lines
       ++ [print en; embed_query search_text (inr res1);
           aggregate res1 "euclidean" 2 (inl e)])
| text_search_raised en res1 r e :
    retrieve_shape nb search_text (inl e)
      (invoke_model (translate_instruction nb +:+ search_text) (inr (inr en))
       :: timer_lines
       ++ [print en; embed_query search_text (inr res1);
           aggregate res1 "euclidean" 2 (inr r); find_text en (inl e)])
| retrieved en res1 r tsr :
    retrieve_shape nb search_text (inr (tsr, r))
      (invoke_model (translate_instruction nb +:+ search_text) (inr (inr en))
       :: timer_lines
       ++ [print en; embed_query search_text (inr res1);
           aggregate res1 "euclidean" 2 (inr r); find_text en (inr tsr)]).

Inductive recommend_shape (nb : notebook) (x : doc)
  : exn + unit → list event → Prop :=
| generation_raised e :
    recommend_shape nb x (inl e)
      [invoke_model (recommendation_prompt nb x) (inl e)]
| generation_unread e :
    recommend_shape nb x (inl e)
      (invoke_model (recommendation_prompt nb x) (inr (inl e)) :: timer_lines)
| download_raised response e :
    recommend_shape nb x (inl e)
      (invoke_model (recommendation_prompt nb x) (inr (inr response))
       :: timer_lines
       ++ [print response; requests_get (split_0 question_mark (url x)) (inl e)])
| imread_raised response e :
    recommend_shape nb x (inl e)
      (invoke_model (recommendation_prompt nb x) (inr (inr response))
       :: timer_lines
       ++ [print response; requests_get (split_0 question_mark (url x)) (inr tt);
           imread (split_0 question_mark (url x)) (inl e)])
| recommended response :
    recommend_shape nb x (inr tt)
      (invoke_model (recommendation_prompt nb x) (inr (inr response))
       :: timer_lines
       ++ [print response; requests_get (split_0 question_mark (url x)) (inr tt);
           imread (split_0 question_mark (url x)) (inr tt); imshow]).

Inductive recommend_all_shape (nb : notebook)
  : list doc → exn + unit → list event → Prop :=
| loop_over : recommend_all_shape nb [] (inr tt) []
| loop_broken x rest e evs :
    recommend_shape nb x (inl e) evs →
    recommend_all_shape nb (x :: rest) (inl e) evs
| loop_next x rest evs out evs' :
    recommend_shape nb x (inr tt) evs →
    recommend_all_shape nb rest out evs' →
    recommend_all_shape nb (x :: rest) out (evs ++ evs').

Inductive similarity_search_shape (nb : notebook) (search_text : string)
  : exn + unit → list event → Prop :=
| search_failed e evs :
    retrieve_shape nb search_text (inl e) evs →
    similarity_search_shape nb search_text (inl e) evs
| search_merged tsr r evs out evs' :
    retrieve_shape nb search_text (inr (tsr, r)) evs →
    recommend_all_shape nb (merge 2 tsr r) out evs' →
    similarity_search_shape nb search_text out (evs ++ evs').

(** ** Loading the corpus (the cells before [similarity_search])

    The first code cell reads the metadata file; a later one embeds every
    entry and stores it in the collection, then asks for the vector index;
    the next asks for the text index. *)

(** One entry of the metadata file as [json.load] gives it: a dict, of
    which [x.get(key)] is [None] when the key is missing. *)
Module metadata.
Record item := {
  url : option string;
  name : option string;
  descriptions : option (list string);
  descriptions_en : option (list string);
  recommendation : option string
}.
End metadata.

(** The dict the ingestion cell hands to [insert_one]. The key
    descriptions_en is written by the Chinese notebook only. *)
Module record.
Record t := {
  name : option string;
  descriptions : string;
  descriptions_en : option string;
  recommendation : option string;
  url : option string;
  descriptions_embeddings : list float
}.
End record.

(** What differs between the two notebooks in these cells. *)
Record corpus_cells := {
  filename : string;
  missing_message : string;
  stores_descriptions_en : bool;
  text_index_key : string
}.

Definition cells_en : corpus_cells := {|
  filename := "metadata_en.json";
  missing_message := "metadata_en.json file not exits";
  stores_descriptions_en := false;
  text_index_key := "descriptions"
|}.

Definition cells_zh : corpus_cells := {|
  filename := "metadata.json";
  missing_message := "metadata.json file not exits";
  stores_descriptions_en := true;
  text_index_key := "descriptions_en"
|}.

(** [sep.join(l)] *)
Fixpoint join (sep : string) (l : list string) : string :=
  match l with
  | [] => ""
  | s :: rest =>
      match rest with
      | [] => s
      | _ => s +:+ sep +:+ join sep rest
      end
  end.

(** [x.get(key, [])] on a key that holds a list. *)
Definition get_list (field : option (list string)) : list string :=
  default [] field.

(** [description1] of the ingestion loop. *)
Definition description1 (x : metadata.item) : string :=
  join " " (get_list (metadata.descriptions x)).

(** [record] of the ingestion loop. *)
Definition record_of (c : corpus_cells) (x : metadata.item) (vector : list float)
  : record.t := {|
  record.name := metadata.name x;
  record.descriptions := description1 x;
  record.descriptions_en :=
    if stores_descriptions_en c
    then Some (join " " (get_list (metadata.descriptions_en x)))
    else None;
  record.recommendation := metadata.recommendation x;
  record.url := metadata.url x;
  record.descriptions_embeddings := vector
|}.

Inductive index_request :=
| vector_index (key : string) (lists : nat) (similarity : string) (dimensions : nat)
| text_index (key : string).

(** The calls to the collection, with what they returned or raised. *)
Inductive db_event :=
| insert_one (rec : record.t) (out : exn + unit)
| create_index (ix : index_request) (out : exn + unit).

(** The calls of the ingestion, to Bedrock or to the collection, in order. *)
Definition ingest_event : Type := event + db_event.

Record docdb := {
  docdb_insert_one : list ingest_event → record.t → exn + unit;
  docdb_create_index : list ingest_event → index_request → exn + unit
}.

Definition I (A : Type) : Type :=
  env → docdb → list ingest_event → (exn + A) * list ingest_event.

#[global] Instance I_ret : MRet I := λ A a _ _ l, (inr a, l).

#[global] Instance I_bind : MBind I := λ A B f m w db l,
  match m w db l with
  | (inr a, l') => f a w db l'
  | (inl e, l') => (inl e, l')
  end.

(** The Bedrock calls among the calls of the ingestion. *)
Definition bedrock_part (l : list ingest_event) : list event :=
  omap (λ ev, match ev with inl b => Some b | inr _ => None end) l.

(** A function of the search part, run inside the ingestion: Bedrock sees
    the Bedrock calls made so far, and the calls it adds are logged. *)
Definition lift {A} (m : M A) : I A := λ w _ l,
  let t := bedrock_part l in
  let run := m w t in
  (run.1, l ++ (inl <$> drop (length t) run.2)).

Definition db_call {A} (ask : docdb → list ingest_event → exn + A)
    (record : exn + A → db_event) : I A :=
  λ _ db l, let out := ask db l in (out, l ++ [inr (record out)]).

Fixpoint for_each_I {A S} (l : list A) (body : A → S → I S) (s : S) : I S :=
  match l with
  | [] => mret s
  | x :: rest => s' ← body x s; for_each_I rest body s'
  end.

(** The body of [for x in results]. *)
Definition store (c : corpus_cells) (x : metadata.item) : I unit :=
  let description1 := description1 x in
  vector ← lift (generate_embeddings description1);
  let record := record_of c x vector in
  rec_id1 ← db_call (λ db l, docdb_insert_one db l record) (insert_one record);
  mret tt.

Definition embeddings_index : index_request :=
  vector_index "descriptions_embeddings" 1 "euclidean" 1536.

(** The ingestion cell: the loop, then [collection.create_index] for the
    vector index. *)
Definition ingest (c : corpus_cells) (results : list metadata.item) : I unit :=
  for_each_I results (λ x _, store c x) tt;;
  db_call (λ db l, docdb_create_index db l embeddings_index)
          (create_index embeddings_index).

(** The text index cell. *)
Definition create_text_index (c : corpus_cells) : I unit :=
  db_call (λ db l, docdb_create_index db l (text_index (text_index_key c)))
          (create_index (text_index (text_index_key c))).

(** The records whose insertion returned, in order. *)
Definition inserted (l : list ingest_event) : list record.t :=
  flat_map (λ ev, match ev with
                  | inr (insert_one rec (inr _)) => [rec]
                  | _ => []
                  end) l.

(** The texts sent for embedding, in order. *)
Definition embedded_texts (l : list ingest_event) : list string :=
  flat_map (λ ev, match ev with
                  | inl (embed_query text _) => [text]
                  | _ => []
                  end) l.

Definition is_create_index (ev : ingest_event) : bool :=
  match ev with inr (create_index _ _) => true | _ => false end.

Inductive store_shape (c : corpus_cells) (x : metadata.item)
  : exn + unit → list ingest_event → Prop :=
| store_embedding_raised e :
    store_shape c x (inl e) [inl (embed_query (description1 x) (inl e))]
| store_insert_raised vector e :
    store_shape c x (inl e)
      [inl (embed_query (description1 x) (inr vector));
       inr (insert_one (record_of c x vector) (inl e))]
| stored vector :
    store_shape c x (inr tt)
      [inl (embed_query (description1 x) (inr vector));
       inr (insert_one (record_of c x vector) (inr tt))].

Inductive store_all_shape (c : corpus_cells)
  : list metadata.item → exn + unit → list ingest_event → Prop :=
| store_all_over : store_all_shape c [] (inr tt) []
| store_all_broken x rest e evs :
    store_shape c x (inl e) evs →
    store_all_shape c (x :: rest) (inl e) evs
| store_all_next x rest evs out evs' :
    store_shape c x (inr tt) evs →
    store_all_shape c rest out evs' →
    store_all_shape c (x :: rest) out (evs ++ evs').

Inductive ingest_shape (c : corpus_cells) (results : list metadata.item)
  : exn + unit → list ingest_event → Prop :=
| ingest_broken e evs :
    store_all_shape c results (inl e) evs →
    ingest_shape c results (inl e) evs
| ingest_indexed out evs :
    store_all_shape c results (inr tt) evs →
    ingest_shape c results out (evs ++ [inr (create_index embeddings_index out)]).

(** The first code cell. [open] fails on a missing file; [json.load]
    decodes the text or raises; [os.path.exists] is asked afterwards. *)
Record file_system := {
  open_read : string → exn + string;
  path_exists : string → bool;
  json_load : string → exn + list metadata.item
}.

Inductive printed :=
| printed_text (s : string)
| printed_item (x : metadata.item).

Definition load_metadata (c : corpus_cells) (fs : file_system)
  : (exn + list metadata.item) * list printed :=
  match open_read fs (filename c) with
  | inl e => (inl e, [])
  | inr text =>
      match json_load fs text with
      | inl e => (inl e, [])
      | inr results =>
          let out := if negb (path_exists fs (filename c))
                     then [printed_text (missing_message c)] else [] in
          match results with
          | [] => (inl (Raised "IndexError"), out)
          | x :: _ => (inr results, out ++ [printed_item x])
          end
      end
  end.

(** ** Sample hits *)

Definition lexical_hit (n : string) (s : float) : doc :=
  {| _id := Some ("id-" +:+ n); name := n; descriptions := "about " +:+ n;
     descriptions_en := None; recommendation := "Memory: 8 GB RAM";
     url := "https://example.com/" +:+ n +:+ ".jpg?sig=1";
     descriptions_embeddings := [0.5%float; 0.25%float]; score := Some s |}.

Definition vector_hit (n : string) : doc :=
  {| _id := None; name := n; descriptions := "about " +:+ n;
     descriptions_en := None; recommendation := "Memory: 8 GB RAM";
     url := "https://example.com/" +:+ n +:+ ".jpg?sig=1";
     descriptions_embeddings := [0.5%float; 0.25%float]; score := None |}.

Definition sample_tsr : list doc :=
  [lexical_hit "A" 0.875; lexical_hit "B" 0.75; lexical_hit "C" 0.625].

Definition sample_r : list doc := [vector_hit "B"; vector_hit "D"].

(** Services that always answer: the model returns a fixed text, the indexes
    return the sample hits. *)
Definition env_up : env := {|
  bedrock_invoke_model := λ _ _, inr (inr "multiplayer shooting");
  bedrock_embed_query := λ _ _, inr [0.5%float; 0.25%float];
  collection_aggregate := λ _ _ _ _, inr sample_r;
  collection_find := λ _ _, inr sample_tsr;
  http_get := λ _ _, inr tt;
  skimage_imread := λ _ _, inr tt
|}.

(** The same services, but the model answers its first request only (the
    translation) and is throttled from then on. *)
Definition env_throttled : env := {|
  bedrock_invoke_model := λ t _,
    match t with
    | [] => inr (inr "multiplayer shooting")
    | _ => inl (Raised "ThrottlingException")
    end;
  bedrock_embed_query := bedrock_embed_query env_up;
  collection_aggregate := collection_aggregate env_up;
  collection_find := collection_find env_up;
  http_get := http_get env_up;
  skimage_imread := skimage_imread env_up
|}.

(** A collection that accepts every request. *)
Definition db_up : docdb := {|
  docdb_insert_one := λ _ _, inr tt;
  docdb_create_index := λ _ _, inr tt
|}.

Definition sample_item (n : string) : metadata.item := {|
  metadata.url := Some ("https://example.com/" +:+ n +:+ ".jpg");
  metadata.name := Some n;
  metadata.descriptions := Some ["Game genres: Action"; "Game Introduction: " +:+ n];
  metadata.descriptions_en := None;
  metadata.recommendation := Some "Memory: 8 GB RAM"
|}.

Definition sample_results : list metadata.item := [sample_item "A"; sample_item "B"].

(** A file system that holds the English metadata file and nothing else. *)
Definition fs_with_file : file_system := {|
  open_read := λ f, if String.eqb f "metadata_en.json" then inr "[...]"
                    else inl (Raised "FileNotFoundError");
  path_exists := λ f, String.eqb f "metadata_en.json";
  json_load := λ _, inr sample_results
|}.

(** The services of [env_up] with the text index out of reach. *)
Definition env_text_down : env := {|
  bedrock_invoke_model := bedrock_invoke_model env_up;
  bedrock_embed_query := bedrock_embed_query env_up;
  collection_aggregate := collection_aggregate env_up;
  collection_find := λ _ _, inl (Raised "ServerSelectionTimeoutError");
  http_get := http_get env_up;
  skimage_imread := skimage_imread env_up
|}.

(** ** The scenarios of the specification *)

Example scenario_cap :
  names (merge 2 [lexical_hit "A" 0.875; lexical_hit "B" 0.75; lexical_hit "C" 0.625]
                 [vector_hit "B"; vector_hit "D"]) = ["A"; "B"].
Proof. vm_compute. reflexivity. Qed.

Example scenario_vector_only :
  names (merge 2 [] [vector_hit "E"; vector_hit "F"]) = ["E"; "F"].
Proof. vm_compute. reflexivity. Qed.

Example scenario_shared :
  names (merge 5 [lexical_hit "G" 0.5] [vector_hit "G"; vector_hit "H"]) = ["G"; "H"].
Proof. vm_compute. reflexivity. Qed.

(** ** Facts about the two loops of the merge *)

Section MergeFacts.

Context (cap : nat).
Implicit Types (tsr r seen l : list doc) (acc : gset string * list doc).
Implicit Types (d x : doc) (k : string).

Lemma fold_append l merged_list :
  fold_left append l merged_list = merged_list ++ l.
Proof.
  revert merged_list; induction l as [|d l IH]; intros merged_list; simpl.
  - by rewrite app_nil_r.
  - rewrite IH. unfold append. by rewrite <- app_assoc.
Qed.

Lemma build_merged_list_app tsr r : build_merged_list tsr r = tsr ++ r.
Proof. unfold build_merged_list. by rewrite !fold_append. Qed.

(** The guard of the loop body, as a proposition. *)
Lemma dedup_step_emit acc x :
  str (name x) ∉ acc.1 → length acc.2 < cap →
  dedup_step cap acc x = (acc.1 ∪ {[str (name x)]}, acc.2 ++ [x]).
Proof.
  destruct acc as [us res]; simpl; intros Hk Hlen.
  rewrite bool_decide_eq_true_2 by done.
  by rewrite (proj2 (Nat.ltb_lt _ _) Hlen).
Qed.

Lemma dedup_step_skip acc x :
  str (name x) ∈ acc.1 ∨ cap ≤ length acc.2 → dedup_step cap acc x = acc.
Proof.
  destruct acc as [us res]; simpl; intros [Hk|Hlen].
  - rewrite bool_decide_eq_false_2; [done|]. by intros Hn.
  - rewrite (proj2 (Nat.ltb_ge _ _) Hlen). by rewrite andb_false_r.
Qed.

Lemma dedup_step_cases acc x :
  ((str (name x) ∉ acc.1) ∧ (length acc.2 < cap) ∧
     dedup_step cap acc x = (acc.1 ∪ {[str (name x)]}, acc.2 ++ [x]))
  ∨ ((str (name x) ∈ acc.1 ∨ cap ≤ length acc.2) ∧ dedup_step cap acc x = acc).
Proof.
  destruct (decide (str (name x) ∈ acc.1)) as [Hin|Hin].
  { right. split; [by left|]. by apply dedup_step_skip; left. }
  destruct (decide (length acc.2 < cap)) as [Hlt|Hge].
  - left. split_and!; [done..|]. by apply dedup_step_emit.
  - right. assert (cap ≤ length acc.2) by lia.
    split; [by right|]. by apply dedup_step_skip; right.
Qed.

(** Once [result] holds [cap] items the rest of the walk changes nothing. *)
Lemma dedup_fold_full l acc :
  cap ≤ length acc.2 → fold_left (dedup_step cap) l acc = acc.
Proof.
  induction l as [|x l IH]; intros Hfull; simpl; [done|].
  rewrite dedup_step_skip by (by right). by apply IH.
Qed.


Lemma distinct_names_cons x l :
  distinct_names (x :: l) = {[str (name x)]} ∪ distinct_names l.
Proof. done. Qed.

Lemma distinct_names_singleton x : distinct_names [x] = {[str (name x)]}.
Proof.
  rewrite distinct_names_cons. unfold distinct_names. simpl.
  apply (right_id_L ∅ (∪)).
Qed.

Lemma first_hit_none k l : k ∉ distinct_names l → first_hit k l = None.
Proof.
  unfold first_hit. induction l as [|x l IH]; simpl; [done|].
  rewrite distinct_names_cons. intros Hk.
  apply not_elem_of_union in Hk as [Hx Hl].
  destruct (String.eqb_spec (str (name x)) k) as [Heq|_].
  - by apply not_elem_of_singleton in Hx.
  - by apply IH.
Qed.

Lemma first_hit_app_some k l l' d :
  first_hit k l = Some d → first_hit k (l ++ l') = Some d.
Proof.
  unfold first_hit. induction l as [|x l IH]; simpl; [done|].
  destruct (String.eqb (str (name x)) k); [done|]. apply IH.
Qed.

Lemma first_hit_app_none k l l' :
  first_hit k l = None → first_hit k (l ++ l') = first_hit k l'.
Proof.
  unfold first_hit. induction l as [|x l IH]; simpl; [done|].
  destruct (String.eqb (str (name x)) k); [done|]. apply IH.
Qed.


Lemma distinct_names_app l l' :
  distinct_names (l ++ l') = distinct_names l ∪ distinct_names l'.
Proof. unfold distinct_names. rewrite map_app. apply list_to_set_app_L. Qed.

Lemma distinct_names_names l : distinct_names l = list_to_set (names l).
Proof. done. Qed.

Lemma names_lookup (l : list doc) (i : nat) : names l !! i = name <$> l !! i.
Proof.
  revert i; induction l as [|x l IH]; intros [|i]; simpl; try done.
Qed.

Lemma names_elem_of (l : list doc) (k : string) :
  k ∈ names l ↔ k ∈ distinct_names l.
Proof. unfold distinct_names, names, str. by rewrite elem_of_list_to_set. Qed.

Lemma merge_inv_init : merge_inv cap [] (∅, []).
Proof.
  split; simpl; try done.
  - constructor.
  - lia.
  - intros d Hd. by apply elem_of_nil in Hd.
Qed.

Lemma merge_inv_step seen acc x :
  merge_inv cap seen acc → merge_inv cap (seen ++ [x]) (dedup_step cap acc x).
Proof.
  intros [Hset Hnd Hcap Hsub Hopen Hfirst].
  destruct (dedup_step_cases acc x) as [(Hk & Hlt & ->)|[Hskip ->]].
  - specialize (Hopen Hlt). split; simpl.
    + by rewrite distinct_names_app, <- Hset, distinct_names_singleton.
    + unfold names. rewrite map_app. apply NoDup_app. split_and!; [done| |].
      * intros k Hin. simpl. rewrite Hset in Hk. unfold distinct_names, str in Hk.
        intros ->%list_elem_of_singleton. apply Hk. by apply elem_of_list_to_set.
      * simpl. apply NoDup_singleton.
    + rewrite length_app. simpl. lia.
    + by apply sublist_app.
    + intros _. by rewrite distinct_names_app, <- Hopen, distinct_names_singleton.
    + intros d [Hd| ->%list_elem_of_singleton]%elem_of_app.
      * by apply first_hit_app_some, Hfirst.
      * rewrite first_hit_app_none by (apply first_hit_none; by rewrite <- Hopen).
        unfold first_hit; simpl. by rewrite String.eqb_refl.
  - split; try done.
    + by apply sublist_inserts_r.
    + intros Hlt. destruct Hskip as [Hk|Hge]; [|lia].
      rewrite distinct_names_app, <- (Hopen Hlt), distinct_names_singleton.
      rewrite (comm_L (∪)). symmetry.
      by apply subseteq_union_1_L, singleton_subseteq_l.
    + intros d Hd. by apply first_hit_app_some, Hfirst.
Qed.

Lemma merge_inv_fold l seen acc :
  merge_inv cap seen acc → merge_inv cap (seen ++ l) (fold_left (dedup_step cap) l acc).
Proof.
  revert seen acc; induction l as [|x l IH]; intros seen acc Hinv; simpl.
  - by rewrite app_nil_r.
  - replace (seen ++ x :: l) with ((seen ++ [x]) ++ l) by (by rewrite <- app_assoc).
    by apply IH, merge_inv_step.
Qed.

Lemma merge_inv_loop l : merge_inv cap l (dedup_loop cap l).
Proof. apply (merge_inv_fold l [] _ merge_inv_init). Qed.

Lemma merge_unfold tsr r :
  merge cap tsr r = (dedup_loop cap (tsr ++ r)).2.
Proof. unfold merge. by rewrite build_merged_list_app. Qed.

Lemma merge_inv_merge tsr r :
  merge_inv cap (tsr ++ r) (dedup_loop cap (tsr ++ r)).
Proof. apply merge_inv_loop. Qed.

Lemma inv_length seen acc : merge_inv cap seen acc → length acc.2 = size acc.1.
Proof.
  intros [Hset Hnd _ _ _ _]. rewrite Hset, distinct_names_names.
  rewrite size_list_to_set by done. unfold names. by rewrite length_map.
Qed.

Lemma inv_subseteq seen acc : merge_inv cap seen acc → acc.1 ⊆ distinct_names seen.
Proof.
  intros [Hset _ _ Hsub _ _]. rewrite Hset. unfold distinct_names.
  intros k Hk%elem_of_list_to_set%list_elem_of_In%in_map_iff.
  destruct Hk as (d & <- & Hd%list_elem_of_In).
  apply elem_of_list_to_set, list_elem_of_In, in_map_iff. exists d. split; [done|].
  apply list_elem_of_In. revert Hd. by apply sublist_subseteq.
Qed.

(** The walk over the lexical hits comes first; the vector hits continue it. *)
Lemma dedup_loop_app tsr r :
  dedup_loop cap (tsr ++ r) = fold_left (dedup_step cap) r (dedup_loop cap tsr).
Proof. unfold dedup_loop. by rewrite fold_left_app. Qed.

Lemma merge_lexical_alone tsr : merge cap tsr [] = (dedup_loop cap tsr).2.
Proof. by rewrite merge_unfold, app_nil_r. Qed.



(** The walk against the reference scan, from any point of the walk. *)
Lemma dedup_fold_reference l unique_set result :
  length result ≤ cap →
  (fold_left (dedup_step cap) l (unique_set, result)).2
  = result ++ reference_scan l (cap - length result) unique_set.
Proof.
  revert unique_set result.
  induction l as [|x l IH]; intros us res Hlen; cbn [fold_left reference_scan].
  { by rewrite app_nil_r. }
  destruct (cap - length res) as [|b] eqn:Hb.
  - rewrite dedup_step_skip by (right; simpl; lia).
    rewrite dedup_fold_full by (simpl; lia). simpl. by rewrite app_nil_r.
  - case_bool_decide as Hin.
    + rewrite dedup_step_skip by (by left).
      rewrite IH by done. by rewrite Hb.
    + rewrite dedup_step_emit by (simpl; done || lia). cbn [fst snd]. unfold str.
      rewrite IH by (rewrite length_app; simpl; lia).
      rewrite length_app. simpl.
      replace (cap - (length res + 1)) with b by lia.
      by rewrite <- app_assoc.
Qed.

(** The walk reads nothing of a hit but its name. *)
Lemma dedup_fold_names l l' acc acc' :
  names l = names l' → acc.1 = acc'.1 → names acc.2 = names acc'.2 →
  (fold_left (dedup_step cap) l acc).1 = (fold_left (dedup_step cap) l' acc').1
  ∧ names (fold_left (dedup_step cap) l acc).2
    = names (fold_left (dedup_step cap) l' acc').2.
Proof.
  revert l' acc acc'.
  induction l as [|x l IH]; intros [|x' l'] [us res] [us' res']; simpl;
    intros Hl Hus Hres; try done.
  injection Hl as Hx Hl. subst us'.
  assert (length res = length res') as Hlen.
  { rewrite <- (length_map name res), <- (length_map name res').
    unfold names in Hres. by rewrite Hres. }
  apply IH; [done|..]; rewrite Hx, Hlen;
    destruct (bool_decide _ && _); simpl; [done|done| |done].
  unfold names in *. rewrite !map_app. simpl. by rewrite Hres, Hx.
Qed.

End MergeFacts.

(** The merge loops make no call and cannot fail. *)
Lemma for_each_pure {A S} (f : S → A → S) (l : list A) (s : S) w t :
  for_each l (λ x s, mret (f s x)) s w t = (inr (fold_left f l s), t).
Proof.
  revert s; induction l as [|x l IH]; intros s; simpl; [done|].
  unfold mbind, M_bind, mret, M_ret. apply IH.
Qed.

Lemma merge_block_run cap tsr r w t :
  merge_block cap tsr r w t = (inr (merge cap tsr r), t).
Proof.
  unfold merge_block, mbind, M_bind.
  rewrite (for_each_pure append tsr []).
  rewrite (for_each_pure append r).
  rewrite (for_each_pure (dedup_step cap)). done.
Qed.

(** ** The recall merger *)

(** C1. For all hit lists and every cap N, the merged result has length
    min(N, number of distinct names across both lists); in particular it is
    at most N and at most the number of distinct names. *)
Theorem merge_length (N : nat) (tsr r : list doc) :
  length (merge N tsr r) = N `min` size (distinct_names (tsr ++ r))
  ∧ length (merge N tsr r) ≤ N
  ∧ length (merge N tsr r) ≤ size (distinct_names (tsr ++ r)).
Proof.
  pose proof (merge_inv_merge N tsr r) as Hinv.
  unfold merge. rewrite build_merged_list_app.
  pose proof (inv_length _ _ _ Hinv) as Hlen.
  pose proof (inv_cap _ _ _ Hinv) as Hcap.
  pose proof (subseteq_size _ _ (inv_subseteq _ _ _ Hinv)) as Hsize.
  destruct (decide (length (dedup_loop N (tsr ++ r)).2 < N)) as [Hlt|Hge].
  - pose proof (inv_open _ _ _ Hinv Hlt) as Hall. rewrite Hall in Hlen. lia.
  - lia.
Qed.

(** C2. No name appears twice in the merged result: two distinct positions
    hold candidates with different names. *)
Theorem merge_no_duplicate_names (N : nat) (tsr r : list doc)
    (i j : nat) (a b : doc) :
  i ≠ j →
  merge N tsr r !! i = Some a →
  merge N tsr r !! j = Some b →
  name a ≠ name b.
Proof.
  intros Hij Ha Hb Hname. apply Hij.
  pose proof (inv_nodup _ _ _ (merge_inv_merge N tsr r)) as Hnd.
  rewrite <- merge_unfold in Hnd.
  apply (NoDup_lookup _ i j (name a) Hnd); rewrite names_lookup.
  - by rewrite Ha.
  - by rewrite Hb, Hname.
Qed.

Lemma merge_no_duplicate_names_witness :
  name (lexical_hit "A" 0.875) ≠ name (lexical_hit "B" 0.75).
Proof.
  apply (merge_no_duplicate_names 2 sample_tsr sample_r 0 1);
    [lia | vm_compute; reflexivity | vm_compute; reflexivity].
Defined.







(** C7. The merge reads no score: two pairs of hit lists with the same
    names in the same order, whatever their scores and other fields, merge
    to results with the same names in the same order. *)
Theorem merge_ignores_scores (N : nat) (tsr r tsr' r' : list doc) :
  names tsr = names tsr' → names r = names r' →
  names (merge N tsr r) = names (merge N tsr' r').
Proof.
  intros Htsr Hr. rewrite !merge_unfold. unfold dedup_loop.
  apply dedup_fold_names; [|done..].
  unfold names in *. by rewrite !map_app, Htsr, Hr.
Qed.

Lemma merge_ignores_scores_witness :
  names (merge 2 [lexical_hit "A" 0.875; lexical_hit "B" 0.75] [vector_hit "B"])
  = names (merge 2 [lexical_hit "A" 0.125; lexical_hit "B" 0.5] [lexical_hit "B" 0.25]).
Proof.
  apply (merge_ignores_scores 2); reflexivity.
Defined.

(** C9. The walk of the whole concatenated list, which guards each emission
    by "name not yet seen" and "fewer than N emitted", produces the same
    sequence as the reference scan that stops once N items are emitted. *)
Theorem merge_refines_reference (N : nat) (tsr r : list doc) :
  merge N tsr r = reference_merge N tsr r.
Proof.
  rewrite merge_unfold. unfold dedup_loop, reference_merge.
  rewrite dedup_fold_reference by (simpl; lia).
  simpl. by rewrite Nat.sub_0_r.
Qed.

(** C10. The merge only omits: its result is a subsequence of the lexical
    hits followed by the vector hits, and each of its elements is an element
    of one of the two lists, with every field it arrived with. *)
Theorem merge_only_omits (N : nat) (tsr r : list doc) :
  sublist (merge N tsr r) (tsr ++ r)
  ∧ ∀ d, d ∈ merge N tsr r → d ∈ tsr ∨ d ∈ r.
Proof.
  pose proof (inv_sub _ _ _ (merge_inv_merge N tsr r)) as Hsub.
  rewrite <- merge_unfold in Hsub. split; [done|].
  intros d Hd. apply elem_of_app. revert Hd. by apply sublist_subseteq.
Qed.

(** ** Running the notebook's functions *)

Lemma bind_run {A B} (m : M A) (f : A → M B) w t :
  (m ≫= f) w t = match m w t with
                 | (inr a, t') => f a w t'
                 | (inl e, t') => (inl e, t')
                 end.
Proof. done. Qed.

Lemma timer_llm_claude3_run prompt w t :
  timer_llm_claude3 prompt 1 w t =
  match bedrock_invoke_model w t prompt with
  | inl e => (inl e, t ++ [invoke_model prompt (inl e)])
  | inr body =>
      (body, t ++ [invoke_model prompt (inr body); print banner; print_elapsed])
  end.
Proof.
  unfold timer_llm_claude3. unfold_M. simpl.
  destruct (bedrock_invoke_model w t prompt) as [e|[e|text]]; simpl;
    by rewrite <- ?app_assoc.
Qed.

(** One turn of the recommendation loop: the model call comes first, and
    what follows it, if anything, is display and image fetching. *)
Lemma recommend_run nb x w t :
  ∃ evs,
    (recommend nb x w t).2
    = t ++ invoke_model (recommendation_prompt nb x)
             (bedrock_invoke_model w t (recommendation_prompt nb x)) :: evs
    ∧ model_calls evs = []
    ∧ forallb (λ ev, negb (is_search_call ev)) evs = true
    ∧ ∀ e, bedrock_invoke_model w t (recommendation_prompt nb x) = inl e →
           evs = [] ∧ (recommend nb x w t).1 = inl e.
Proof.
  unfold recommend. rewrite bind_run, timer_llm_claude3_run.
  destruct (bedrock_invoke_model w t _) as [e|[e|text]].
  - exists []. split_and!; try done. intros e' [= ->]. done.
  - eexists. split_and!; [by rewrite <- ?app_assoc|done|done|done].
  - unfold_M.
    destruct (http_get w _ _) as [e1|[]]; [|destruct (skimage_imread w _ _) as [e2|[]]];
      simpl; eexists; (split_and!; [by rewrite <- ?app_assoc|done|done|done]).
Qed.

Lemma model_calls_app evs evs' :
  model_calls (evs ++ evs') = model_calls evs ++ model_calls evs'.
Proof. unfold model_calls. by rewrite flat_map_app. Qed.

Lemma model_calls_invoke prompt out evs :
  model_calls (invoke_model prompt out :: evs) = (prompt, out) :: model_calls evs.
Proof. done. Qed.

(** The recommendation loop: it asks the model about a prefix of [result],
    in order; a model call that raises is the last one made, and its
    exception is how the loop ends. *)
Lemma recommend_all_run nb result w t :
  ∃ n evs,
    n ≤ length result
    ∧ (recommend_all nb result w t).2 = t ++ evs
    ∧ (model_calls evs).*1 = recommendation_prompt nb <$> take n result
    ∧ forallb (λ ev, negb (is_search_call ev)) evs = true
    ∧ ((recommend_all nb result w t).1 = inr tt → n = length result)
    ∧ (∀ i p e, model_calls evs !! i = Some (p, inl e) →
               S i = n ∧ (recommend_all nb result w t).1 = inl e).
Proof.
  unfold recommend_all. revert t.
  induction result as [|x rest IH]; intros t.
  { exists 0, []. simpl. unfold_M. rewrite app_nil_r. split_and!; try done. }
  cbn [for_each]. rewrite bind_run.
  destruct (recommend_run nb x w t) as (evs1 & Ht & Hcalls & Hsearch & Hfail).
  destruct (recommend nb x w t) as [[e|[]] t'] eqn:Hx; simpl in Ht, Hfail.
  - exists 1, (invoke_model (recommendation_prompt nb x)
                 (bedrock_invoke_model w t (recommendation_prompt nb x)) :: evs1).
    simpl. rewrite Hcalls, Hsearch. split_and!; try done; [lia|].
    intros [|i] p e' Hi; simpl in Hi; [|done].
    injection Hi as _ Hout. by destruct (Hfail e' Hout) as [_ [= ->]].
  - destruct (IH t') as (n & evs & Hn & Ht' & Hprompts & Hsearch' & Hok & Hfail').
    exists (S n), (invoke_model (recommendation_prompt nb x)
                     (bedrock_invoke_model w t (recommendation_prompt nb x))
                   :: evs1 ++ evs).
    split_and!.
    + simpl. lia.
    + rewrite Ht', Ht. by rewrite <- app_assoc.
    + rewrite model_calls_invoke, model_calls_app, Hcalls.
      cbn [app firstn]. by rewrite !fmap_cons, Hprompts.
    + simpl. rewrite forallb_app, Hsearch, Hsearch'. done.
    + intros Hdone. simpl. by rewrite (Hok Hdone).
    + intros [|i] p e' Hi; simpl in Hi.
      * injection Hi as _ Hout. by destruct (Hfail e' Hout) as [_ ?].
      * rewrite model_calls_app, Hcalls in Hi. simpl in Hi.
        destruct (Hfail' i p e' Hi) as [<- He]. done.
Qed.

(** The calls up to the two hit lists: the translation comes first; the
    embedding is asked for the raw text, the text search for what the
    translation returned. *)
Lemma retrieve_run nb search_text w t :
  ∃ evs,
    (retrieve nb search_text w t).2
    = t ++ invoke_model (translate_instruction nb +:+ search_text)
             (bedrock_invoke_model w t (translate_instruction nb +:+ search_text))
           :: evs
    ∧ (∀ text o, embed_query text o ∈ evs → text = search_text)
    ∧ (∀ s o, find_text s o ∈ evs →
              bedrock_invoke_model w t (translate_instruction nb +:+ search_text)
              = inr (inr s))
    ∧ (∀ hits, (retrieve nb search_text w t).1 = inr hits →
               (∃ o, embed_query search_text o ∈ evs) ∧ (∃ s o, find_text s o ∈ evs))
    ∧ (∀ en, bedrock_invoke_model w t (translate_instruction nb +:+ search_text)
             = inr (inr en) →
             ∃ o rest, evs = print banner :: print_elapsed :: print en
                             :: embed_query search_text o :: rest).
Proof.
  unfold retrieve. rewrite bind_run, timer_llm_claude3_run.
  destruct (bedrock_invoke_model w t _) as [e|[e|en]].
  - exists []. split_and!; try done; intros; by decompose_list_elem_of.
  - eexists. split_and!; [rewrite <- ?app_assoc; simpl; reflexivity| | |done|done];
      intros; by decompose_list_elem_of.
  - unfold generate_embeddings. unfold_M.
    destruct (bedrock_embed_query w _ _) as [e1|res1];
      [|destruct (collection_aggregate w _ _ _ _) as [e2|r];
        [|destruct (collection_find w _ _) as [e3|tsr]]];
      simpl; eexists;
      (split_and!;
       [ rewrite <- ?app_assoc; simpl; reflexivity
       | intros; decompose_list_elem_of; by simplify_eq
       | intros; decompose_list_elem_of; by simplify_eq
       | intros hits Hhits; try done; split; repeat eexists;
         repeat first [apply list_elem_of_here | apply list_elem_of_further]
       | intros en' [= <-]; by do 2 eexists ]).
Qed.

(** The whole function: the calls of [retrieve], none from the merge, then
    those of the recommendation loop. *)
Lemma similarity_search_run nb search_text w :
  ∃ evs evs',
    calls (similarity_search nb search_text) w
    = invoke_model (translate_instruction nb +:+ search_text)
        (bedrock_invoke_model w [] (translate_instruction nb +:+ search_text))
      :: evs ++ evs'
    ∧ (retrieve nb search_text w []).2
      = invoke_model (translate_instruction nb +:+ search_text)
          (bedrock_invoke_model w [] (translate_instruction nb +:+ search_text))
        :: evs
    ∧ forallb (λ ev, negb (is_search_call ev)) evs' = true
    ∧ (outcome (similarity_search nb search_text) w = inr tt →
       ∃ hits, (retrieve nb search_text w []).1 = inr hits).
Proof.
  destruct (retrieve_run nb search_text w []) as (evs & Ht & _).
  unfold calls, outcome, similarity_search. rewrite bind_run.
  destruct (retrieve nb search_text w []) as [[e|hits] t'] eqn:Hret;
    simpl in Ht; subst t'.
  - exists evs, []. by rewrite app_nil_r.
  - rewrite bind_run, merge_block_run.
    destruct (recommend_all_run nb (merge 2 hits.1 hits.2) w
                (invoke_model (translate_instruction nb +:+ search_text)
                   (bedrock_invoke_model w [] (translate_instruction nb +:+ search_text))
                 :: evs))
      as (n & evs' & _ & Ht' & _ & Hsearch & _).
    exists evs, evs'. rewrite Ht'. split_and!; try done. by exists hits.
Qed.

(** ** The merge lines on the cursors *)

Lemma merge_lines_run cap search batch w t :
  merge_lines cap (find_cursor search) (command_cursor batch) w t
  = match collection_find w t search with
    | inl e => (inl e, t ++ [find_text search (inl e)])
    | inr tsr => (inr (merge cap tsr batch), t ++ [find_text search (inr tsr)])
    end.
Proof.
  unfold merge_lines, documents. rewrite !bind_run. unfold call.
  destruct (collection_find w t search) as [e|tsr]; [done|].
  rewrite (for_each_pure append tsr []), !bind_run.
  unfold mret at 1, M_ret.
  rewrite (for_each_pure append batch), bind_run.
  rewrite (for_each_pure (dedup_step cap)). done.
Qed.

(** The function written on the cursors is the function written on the hit
    lists: same outcome, same calls, in the same order. *)
Lemma similarity_search_on_cursors_run nb search_text w t :
  similarity_search_on_cursors nb search_text w t
  = similarity_search nb search_text w t.
Proof.
  unfold similarity_search_on_cursors, similarity_search, retrieve.
  rewrite !bind_run.
  destruct (timer_llm_claude3 _ 1 w t) as [[e|en_response] t1]; [done|].
  rewrite !bind_run.
  destruct (emit (print en_response) w t1) as [[e|[]] t2]; [done|].
  rewrite !bind_run.
  destruct (generate_embeddings search_text w t2) as [[e|res1] t3]; [done|].
  rewrite !bind_run.
  destruct (call _ (aggregate res1 "euclidean" 2) w t3) as [[e|batch] t4]; [done|].
  rewrite !bind_run, merge_lines_run. unfold call.
  destruct (collection_find w t4 en_response) as [e|tsr]; [done|].
  simpl. by rewrite bind_run, merge_block_run.
Qed.

(** C8 as the specification states it fails: the merge lines are not free
    of I/O. On the cursor of a text search not yet sent and the two vector
    hits in hand, they send the text query; with the text index out of reach
    the same lines, on the same cursors and cap, end with its exception. *)
Lemma merge_lines_send_the_text_query :
  (merge_lines 2 (find_cursor "multiplayer shooting") (command_cursor sample_r)
     env_up []).2
  = [find_text "multiplayer shooting" (inr sample_tsr)]
  ∧ merge_lines 2 (find_cursor "multiplayer shooting") (command_cursor sample_r)
      env_text_down []
    = (inl (Raised "ServerSelectionTimeoutError"),
       [find_text "multiplayer shooting" (inl (Raised "ServerSelectionTimeoutError"))]).
Proof. split; vm_compute; reflexivity. Qed.

(** C8, amended. The merge lines make exactly one external call, the text
    query that the cursor of [find] sends when [for doc in tsr] starts. If
    it raises, the merge ends with its exception; if it returns the hits
    [tsr], the merge ends with [merge N tsr r], a function of the hits the
    two cursors delivered and of the cap alone, whatever the services and
    whatever was called before; and the walk of [merged_list] itself adds no
    call. *)
Theorem merge_lines_read_the_cursors (N : nat) (search : string)
    (r : list doc) (w : env) (t : list event) :
  merge_lines N (find_cursor search) (command_cursor r) w t
  = match collection_find w t search with
    | inl e => (inl e, t ++ [find_text search (inl e)])
    | inr tsr => (inr (merge N tsr r), t ++ [find_text search (inr tsr)])
    end
  ∧ ∀ tsr w' t', merge_lines N (command_cursor tsr) (command_cursor r) w' t'
                 = (inr (merge N tsr r), t').
Proof.
  split; [apply merge_lines_run|].
  intros tsr w' t'. unfold merge_lines, documents, mbind, M_bind, mret, M_ret.
  rewrite (for_each_pure append tsr []), (for_each_pure append r).
  rewrite (for_each_pure (dedup_step N)). done.
Qed.

(** ** Search orchestration and recommendation *)

(** C4. The embedding is computed from the raw query text, and the text
    search is run on the text the translation call returned: every embedding
    call of a run has the raw text as argument, every text search has as
    argument the answer to the run's first call, which is the translation of
    the raw text; a run that ends normally has made both. *)
Theorem search_branches_inputs (nb : notebook) (search_text : string) (w : env) :
  (∀ text o, embed_query text o ∈ calls (similarity_search nb search_text) w →
             text = search_text)
  ∧ (∀ s o, find_text s o ∈ calls (similarity_search nb search_text) w →
            head (calls (similarity_search nb search_text) w)
            = Some (invoke_model (translate_instruction nb +:+ search_text)
                      (inr (inr s))))
  ∧ (outcome (similarity_search nb search_text) w = inr tt →
     (∃ o, embed_query search_text o ∈ calls (similarity_search nb search_text) w)
     ∧ (∃ s o, find_text s o ∈ calls (similarity_search nb search_text) w)).
Proof.
  destruct (similarity_search_run nb search_text w)
    as (evs & evs' & -> & Hret & Hsearch & Hok).
  destruct (retrieve_run nb search_text w []) as (evs0 & Ht & Hembed & Hfind & Hboth & _).
  simpl in Ht. rewrite Ht in Hret. injection Hret as ->.
  assert (∀ ev, ev ∈ evs' → is_search_call ev = false) as Hgen.
  { intros ev Hev%list_elem_of_In. rewrite forallb_forall in Hsearch.
    by apply negb_true_iff, Hsearch. }
  split_and!.
  - intros text o [[=]|[Hin|Hin]%elem_of_app]%elem_of_cons.
    + by eapply Hembed.
    + by apply Hgen in Hin.
  - intros s o [[=]|[Hin|Hin]%elem_of_app]%elem_of_cons.
    + simpl. by rewrite (Hfind _ _ Hin).
    + by apply Hgen in Hin.
  - intros Hdone. destruct (Hok Hdone) as [hits Hhits].
    destruct (Hboth hits Hhits) as [[o Ho] (s & o' & Hs)].
    split; [exists o|exists s, o']; apply list_elem_of_further, elem_of_app; by left.
Qed.

Lemma search_branches_inputs_witness :
  (∃ o, embed_query "Multiplayer Shooting Game" o
        ∈ calls (similarity_search notebook_en "Multiplayer Shooting Game") env_up)
  ∧ (∃ s o, find_text s o
            ∈ calls (similarity_search notebook_en "Multiplayer Shooting Game") env_up).
Proof.
  apply (search_branches_inputs notebook_en "Multiplayer Shooting Game" env_up).
  vm_compute. reflexivity.
Defined.

(** C5 as the specification states it fails: for the empty query the English
    notebook, with every service answering, sends the translation request
    first and runs to its normal end. *)
Lemma empty_query_reaches_translation :
  head (calls (similarity_search notebook_en "") env_up)
  = Some (invoke_model (translate_instruction notebook_en +:+ "")
            (inr (inr "multiplayer shooting")))
  ∧ outcome (similarity_search notebook_en "") env_up = inr tt.
Proof. split; vm_compute; reflexivity. Qed.

(** C5, amended. An empty query is not checked: the first call of the run
    is the translation request made of the instruction followed by the empty
    text, and when it returns a text the run goes on to ask for the embedding
    of the empty text. *)
Theorem empty_query_is_not_rejected (nb : notebook) (w : env) :
  ∃ out rest,
    calls (similarity_search nb "") w
    = invoke_model (translate_instruction nb +:+ "") out :: rest
    ∧ ∀ en, out = inr (inr en) →
            ∃ o rest', rest = print banner :: print_elapsed :: print en
                              :: embed_query "" o :: rest'.
Proof.
  destruct (similarity_search_run nb "" w) as (evs & evs' & -> & Hret & _).
  destruct (retrieve_run nb "" w []) as (evs0 & Ht & _ & _ & _ & Hnext).
  simpl in Ht. rewrite Ht in Hret. injection Hret as ->.
  do 2 eexists. split; [done|].
  intros en Hen. destruct (Hnext en Hen) as (o & rest' & ->).
  by exists o, (rest' ++ evs').
Qed.

Lemma empty_query_is_not_rejected_witness :
  ∃ out rest,
    calls (similarity_search notebook_en "") env_up
    = invoke_model (translate_instruction notebook_en +:+ "") out :: rest.
Proof.
  destruct (empty_query_is_not_rejected notebook_en env_up) as (out & rest & H & _).
  by exists out, rest.
Defined.

(** C6 as the specification states it fails: the merged result holds A and
    B, the model call for A raises, the run ends with that exception, and no
    model call is made for B. *)
Lemma generation_failure_skips_the_rest :
  merge 2 sample_tsr sample_r = [lexical_hit "A" 0.875; lexical_hit "B" 0.75]
  ∧ outcome (similarity_search notebook_en "Multiplayer Shooting Game") env_throttled
    = inl (Raised "ThrottlingException")
  ∧ (model_calls
       (calls (similarity_search notebook_en "Multiplayer Shooting Game")
          env_throttled)).*1
    = [translate_instruction notebook_en +:+ "Multiplayer Shooting Game";
       recommendation_prompt notebook_en (lexical_hit "A" 0.875)]
  ∧ recommendation_prompt notebook_en (lexical_hit "B" 0.75)
    ≠ recommendation_prompt notebook_en (lexical_hit "A" 0.875).
Proof. split_and!; [vm_compute; reflexivity..|]. vm_compute. discriminate. Qed.

(** C6, amended. The recommendation loop asks the model about the
    candidates in order and stops at the first failure: the prompts sent are
    those of a prefix of the merged result; a model call that raises is the
    last one sent and its exception ends the loop; a loop that ends normally
    has asked about every candidate. *)
Theorem recommendation_stops_at_failure (nb : notebook) (result : list doc)
    (w : env) (t : list event) :
  ∃ n evs,
    n ≤ length result
    ∧ (recommend_all nb result w t).2 = t ++ evs
    ∧ (model_calls evs).*1 = recommendation_prompt nb <$> take n result
    ∧ ((recommend_all nb result w t).1 = inr tt → n = length result)
    ∧ (∀ i p e, model_calls evs !! i = Some (p, inl e) →
               S i = n ∧ (recommend_all nb result w t).1 = inl e).
Proof.
  destruct (recommend_all_run nb result w t)
    as (n & evs & Hn & Ht & Hprompts & _ & Hok & Hfail).
  by exists n, evs.
Qed.

(** ** The shape of every run *)

Lemma retrieve_shaped nb search_text w t :
  ∃ evs, (retrieve nb search_text w t).2 = t ++ evs
         ∧ retrieve_shape nb search_text (retrieve nb search_text w t).1 evs.
Proof.
  unfold retrieve. rewrite bind_run, timer_llm_claude3_run.
  destruct (bedrock_invoke_model w t _) as [e|[e|en]].
  - eexists. split; [reflexivity|constructor].
  - eexists. split; [reflexivity|constructor].
  - unfold generate_embeddings. unfold_M.
    destruct (bedrock_embed_query w _ _) as [e1|res1];
      [|destruct (collection_aggregate w _ _ _ _) as [e2|r];
        [|destruct (collection_find w _ _) as [e3|tsr]]];
      simpl; eexists;
      (split; [rewrite <- ?app_assoc; simpl; reflexivity|econstructor]).
Qed.

Lemma recommend_shaped nb x w t :
  ∃ evs, (recommend nb x w t).2 = t ++ evs
         ∧ recommend_shape nb x (recommend nb x w t).1 evs.
Proof.
  unfold recommend. rewrite bind_run, timer_llm_claude3_run.
  destruct (bedrock_invoke_model w t _) as [e|[e|response]].
  - eexists. split; [reflexivity|constructor].
  - eexists. split; [reflexivity|constructor].
  - unfold_M.
    destruct (http_get w _ _) as [e1|[]]; [|destruct (skimage_imread w _ _) as [e2|[]]];
      simpl; eexists;
      (split; [rewrite <- ?app_assoc; simpl; reflexivity|econstructor]).
Qed.

Lemma recommend_all_shaped nb result w t :
  ∃ evs, (recommend_all nb result w t).2 = t ++ evs
         ∧ recommend_all_shape nb result (recommend_all nb result w t).1 evs.
Proof.
  unfold recommend_all. revert t.
  induction result as [|x rest IH]; intros t.
  { exists []. simpl. unfold_M. rewrite app_nil_r. split; [done|constructor]. }
  cbn [for_each]. rewrite bind_run.
  destruct (recommend_shaped nb x w t) as (evs & Ht & Hshape).
  destruct (recommend nb x w t) as [[e|[]] t'] eqn:Hx; simpl in Ht, Hshape; subst t'.
  - exists evs. split; [done|]. by constructor.
  - destruct (IH (t ++ evs)) as (evs' & Ht' & Hshape').
    exists (evs ++ evs'). rewrite Ht', <- app_assoc. split; [done|].
    by econstructor.
Qed.

Lemma similarity_search_shaped nb search_text w :
  similarity_search_shape nb search_text
    (outcome (similarity_search nb search_text) w)
    (calls (similarity_search nb search_text) w).
Proof.
  unfold outcome, calls, similarity_search. rewrite bind_run.
  destruct (retrieve_shaped nb search_text w []) as (evs & Ht & Hshape).
  destruct (retrieve nb search_text w []) as [[e|[tsr r]] t'] eqn:Hret;
    simpl in Ht, Hshape; subst t'.
  - by constructor.
  - rewrite bind_run, merge_block_run. simpl.
    destruct (recommend_all_shaped nb (merge 2 tsr r) w evs) as (evs' & Ht' & Hshape').
    rewrite Ht'. by econstructor.
Qed.

(** ** More on the merge *)

Lemma merge_as_scan cap tsr r :
  merge cap tsr r = reference_scan (tsr ++ r) cap ∅.
Proof.
  rewrite merge_unfold. unfold dedup_loop.
  rewrite dedup_fold_reference by (simpl; lia). simpl. by rewrite Nat.sub_0_r.
Qed.

Lemma reference_scan_take l N M emitted :
  N ≤ M → reference_scan l N emitted = take N (reference_scan l M emitted).
Proof.
  revert N M emitted. induction l as [|x l IH]; intros N M emitted Hle; simpl.
  { by rewrite take_nil. }
  destruct N as [|N]; [done|]. destruct M as [|M]; [lia|].
  case_bool_decide.
  - by apply IH.
  - simpl. f_equal. apply IH. lia.
Qed.

Lemma reference_scan_fresh l N emitted :
  NoDup (names l) → (∀ k, k ∈ names l → k ∉ emitted) → length l ≤ N →
  reference_scan l N emitted = l.
Proof.
  revert N emitted. induction l as [|x l IH]; intros N emitted Hnd Hfresh Hlen;
    simpl in *; [done|].
  destruct N as [|N]; [lia|].
  apply NoDup_cons in Hnd as [Hx Hnd].
  rewrite bool_decide_eq_false_2 by (apply Hfresh, list_elem_of_here).
  f_equal. apply IH; [done| |lia].
  intros k Hk [Hin|Hin%elem_of_singleton]%elem_of_union.
  - by apply (Hfresh k); [apply list_elem_of_further|].
  - by subst k.
Qed.

(** X1. When the lexical hits alone carry at least N distinct names, the
    vector hits play no part: the result is that of the lexical hits alone. *)
Theorem merge_lexical_saturates (N : nat) (tsr r : list doc) :
  N ≤ size (distinct_names tsr) → merge N tsr r = merge N tsr [].
Proof.
  intros Hsize. rewrite merge_unfold, merge_lexical_alone, dedup_loop_app.
  pose proof (merge_inv_loop N tsr) as Hinv.
  rewrite dedup_fold_full; [done|].
  destruct (decide (N ≤ length (dedup_loop N tsr).2)) as [|Hlt]; [done|].
  pose proof (inv_length _ _ _ Hinv) as Hlen.
  rewrite (inv_open _ _ _ Hinv) in Hlen by lia. lia.
Qed.

Lemma merge_lexical_saturates_witness :
  merge 2 sample_tsr sample_r = merge 2 sample_tsr [].
Proof. apply (merge_lexical_saturates 2 sample_tsr sample_r). vm_compute. lia. Defined.

(** X2. Below the cap nothing is lost: when the result holds fewer than N
    candidates, the name of every hit of either list is in the result. *)
Theorem merge_keeps_every_name_below_cap (N : nat) (tsr r : list doc) (d : doc) :
  length (merge N tsr r) < N → d ∈ tsr ++ r → name d ∈ names (merge N tsr r).
Proof.
  intros Hlt Hd. rewrite merge_unfold in *.
  pose proof (merge_inv_merge N tsr r) as Hinv.
  rewrite names_elem_of, <- (inv_set _ _ _ Hinv), (inv_open _ _ _ Hinv Hlt).
  apply names_elem_of, list_elem_of_In, in_map, list_elem_of_In, Hd.
Qed.

Lemma merge_keeps_every_name_below_cap_witness :
  name (vector_hit "H") ∈ names (merge 5 [lexical_hit "G" 0.5] [vector_hit "G"; vector_hit "H"]).
Proof.
  apply merge_keeps_every_name_below_cap.
  - vm_compute. lia.
  - do 2 apply list_elem_of_further. apply list_elem_of_here.
Defined.

(** X3. Lowering the cap only cuts the tail: the result under a cap N is the
    first N candidates of the result under any larger cap. *)
Theorem merge_smaller_cap_is_prefix (N M : nat) (tsr r : list doc) :
  N ≤ M → merge N tsr r = take N (merge M tsr r).
Proof. intros Hle. rewrite !merge_as_scan. by apply reference_scan_take. Qed.

Lemma merge_smaller_cap_is_prefix_witness :
  merge 2 sample_tsr sample_r = take 2 (merge 3 sample_tsr sample_r).
Proof. apply merge_smaller_cap_is_prefix. lia. Defined.

(** X4. Hits that already have pairwise different names and fit under the
    cap pass through unchanged: the result is the lexical hits followed by the
    vector hits. *)
Theorem merge_of_distinct_hits (N : nat) (tsr r : list doc) :
  NoDup (names (tsr ++ r)) → length (tsr ++ r) ≤ N → merge N tsr r = tsr ++ r.
Proof.
  intros Hnd Hlen. rewrite merge_as_scan.
  apply reference_scan_fresh; [done| |done].
  intros k _. apply not_elem_of_empty.
Qed.

Lemma merge_of_distinct_hits_witness :
  merge 2 [lexical_hit "A" 0.875] [vector_hit "D"] = [lexical_hit "A" 0.875; vector_hit "D"].
Proof.
  apply (merge_of_distinct_hits 2 [lexical_hit "A" 0.875] [vector_hit "D"]).
  - simpl. apply NoDup_cons; split; [|apply NoDup_singleton].
    by intros H%list_elem_of_singleton.
  - simpl. lia.
Defined.

(** A name of the lexical list is, after the lexical walk, either seen or
    shut out by the cap; this lasts through the rest of the walk. *)
Lemma dedup_step_keeps_shut cap acc x k :
  k ∈ acc.1 ∨ cap ≤ length acc.2 →
  k ∈ (dedup_step cap acc x).1 ∨ cap ≤ length (dedup_step cap acc x).2.
Proof.
  intros Hk. destruct (dedup_step_cases cap acc x) as [(_ & _ & ->)|[_ ->]]; [|done].
  simpl. destruct Hk as [Hk|Hk]; [left|right].
  - apply elem_of_union. by left.
  - rewrite length_app. simpl. lia.
Qed.

Lemma dedup_fold_filter cap (tsr r : list doc) acc :
  (∀ k, k ∈ names tsr → k ∈ acc.1 ∨ cap ≤ length acc.2) →
  fold_left (dedup_step cap) r acc
  = fold_left (dedup_step cap) (filter (λ d, name d ∉ names tsr) r) acc.
Proof.
  revert acc. induction r as [|x r IH]; intros acc Hshut; [done|].
  destruct (decide (name x ∈ names tsr)) as [Hin|Hout].
  - rewrite filter_cons_False by (by intros Hn). simpl.
    rewrite dedup_step_skip by apply (Hshut _ Hin). by apply IH.
  - rewrite filter_cons_True by done. simpl. apply IH.
    intros k Hk. by apply dedup_step_keeps_shut, Hshut.
Qed.

(** X5. A vector hit that carries the name of some lexical hit never
    matters: dropping all such hits from the vector list leaves the result
    unchanged. *)
Theorem merge_drops_shared_vector_hits (N : nat) (tsr r : list doc) :
  merge N tsr r = merge N tsr (filter (λ d, name d ∉ names tsr) r).
Proof.
  rewrite !merge_unfold, !dedup_loop_app. f_equal.
  apply dedup_fold_filter. intros k Hk.
  pose proof (merge_inv_loop N tsr) as Hinv.
  destruct (decide (N ≤ length (dedup_loop N tsr).2)) as [|Hlt]; [by right|left].
  rewrite (inv_open _ _ _ Hinv) by lia. by apply names_elem_of.
Qed.

(** ** More on the search and the recommendations *)

Ltac walk_events i Hi :=
  unfold timer_lines in *; simpl in *;
  repeat (destruct i as [|i]; simpl in *; simplify_eq; simpl in *; simplify_eq;
          try done).

Lemma retrieve_shape_failure nb search_text out evs i ev e :
  retrieve_shape nb search_text out evs →
  evs !! i = Some ev → failure ev = Some e →
  S i = length evs ∧ out = inl e.
Proof. destruct 1; intros Hi Hf; walk_events i Hi. Qed.

Lemma recommend_shape_failure nb x out evs i ev e :
  recommend_shape nb x out evs →
  evs !! i = Some ev → failure ev = Some e →
  S i = length evs ∧ out = inl e.
Proof. destruct 1; intros Hi Hf; walk_events i Hi. Qed.

Lemma failure_after_clean {A B} (out : exn + B) (a : A) evs evs' i ev e :
  (∀ j ev' e', evs !! j = Some ev' → failure ev' = Some e' →
               S j = length evs ∧ @inr exn A a = inl e') →
  (∀ j ev' e', evs' !! j = Some ev' → failure ev' = Some e' →
               S j = length evs' ∧ out = inl e') →
  (evs ++ evs') !! i = Some ev → failure ev = Some e →
  S i = length (evs ++ evs') ∧ out = inl e.
Proof.
  intros Hclean Hrest Hi Hf. rewrite length_app.
  apply lookup_app_Some in Hi as [Hi|[Hge Hi]].
  - by destruct (Hclean _ _ _ Hi Hf) as [_ ?].
  - destruct (Hrest _ _ _ Hi Hf) as [Hlast ->]. split; [lia|done].
Qed.

Lemma recommend_all_shape_failure nb result out evs :
  recommend_all_shape nb result out evs →
  ∀ i ev e, evs !! i = Some ev → failure ev = Some e →
            S i = length evs ∧ out = inl e.
Proof.
  induction 1 as [|x rest e evs Hx|x rest evs out evs' Hx Hrest IH]; intros i ev e0 Hi Hf.
  - done.
  - by eapply (recommend_shape_failure nb x).
  - eapply (failure_after_clean out tt); [|exact IH|done..].
    intros j ev' e'. by apply (recommend_shape_failure nb x).
Qed.

(** X6. Nothing runs after a failed call: in every run of
    [similarity_search], a call that raised is the last thing the run did,
    and its exception is the outcome of the run. No failed branch is
    replaced by an empty hit list. *)
Theorem first_failure_ends_the_search (nb : notebook) (search_text : string)
    (w : env) (i : nat) (ev : event) (e : exn) :
  calls (similarity_search nb search_text) w !! i = Some ev →
  failure ev = Some e →
  S i = length (calls (similarity_search nb search_text) w)
  ∧ outcome (similarity_search nb search_text) w = inl e.
Proof.
  destruct (similarity_search_shaped nb search_text w)
    as [e' evs Hret|tsr r evs out evs' Hret Hloop].
  - intros Hi Hf.
    by destruct (retrieve_shape_failure _ _ _ _ _ _ _ Hret Hi Hf) as [? [= ->]].
  - apply (failure_after_clean out (tsr, r)).
    + intros j ev' e'. by apply (retrieve_shape_failure nb search_text).
    + by apply (recommend_all_shape_failure nb (merge 2 tsr r)).
Qed.

Lemma first_failure_ends_the_search_witness :
  outcome (similarity_search notebook_en "Multiplayer Shooting Game") env_throttled
  = inl (Raised "ThrottlingException").
Proof.
  apply (first_failure_ends_the_search notebook_en "Multiplayer Shooting Game"
           env_throttled 7
           (invoke_model (recommendation_prompt notebook_en (lexical_hit "A" 0.875))
              (inl (Raised "ThrottlingException")))).
  - vm_compute. reflexivity.
  - reflexivity.
Defined.

Lemma count_calls_app p evs evs' :
  count_calls p (evs ++ evs') = count_calls p evs + count_calls p evs'.
Proof. unfold count_calls. by rewrite List.filter_app, length_app. Qed.

Lemma retrieve_shape_counts nb search_text out evs :
  retrieve_shape nb search_text out evs →
  count_calls is_model_call evs = 1
  ∧ count_calls is_embed_call evs ≤ 1
  ∧ count_calls is_database_call evs ≤ 2
  ∧ count_calls is_image_call evs = 0.
Proof. destruct 1; unfold count_calls, timer_lines; simpl; lia. Qed.

Lemma recommend_shape_counts nb x out evs :
  recommend_shape nb x out evs →
  count_calls is_model_call evs = 1
  ∧ count_calls is_embed_call evs = 0
  ∧ count_calls is_database_call evs = 0
  ∧ count_calls is_image_call evs ≤ 2.
Proof. destruct 1; unfold count_calls, timer_lines; simpl; lia. Qed.

Lemma recommend_all_shape_counts nb result out evs :
  recommend_all_shape nb result out evs →
  count_calls is_model_call evs ≤ length result
  ∧ count_calls is_embed_call evs = 0
  ∧ count_calls is_database_call evs = 0
  ∧ count_calls is_image_call evs ≤ 2 * length result.
Proof.
  induction 1 as [|x rest e evs Hx|x rest evs out evs' Hx Hrest IH].
  - unfold count_calls. simpl. lia.
  - apply recommend_shape_counts in Hx. simpl. lia.
  - apply recommend_shape_counts in Hx. rewrite !count_calls_app. simpl. lia.
Qed.

(** X7. One search costs at most three model calls (the translation and
    two recommendations), one embedding call, two database queries and four
    image requests, whatever the services return. *)
Theorem search_call_budget (nb : notebook) (search_text : string) (w : env) :
  count_calls is_model_call (calls (similarity_search nb search_text) w) ≤ 3
  ∧ count_calls is_embed_call (calls (similarity_search nb search_text) w) ≤ 1
  ∧ count_calls is_database_call (calls (similarity_search nb search_text) w) ≤ 2
  ∧ count_calls is_image_call (calls (similarity_search nb search_text) w) ≤ 4.
Proof.
  destruct (similarity_search_shaped nb search_text w)
    as [e' evs Hret|tsr r evs out evs' Hret Hloop].
  - apply retrieve_shape_counts in Hret. lia.
  - apply retrieve_shape_counts in Hret.
    apply recommend_all_shape_counts in Hloop.
    pose proof (inv_cap _ _ _ (merge_inv_merge 2 tsr r)) as Hcap.
    rewrite <- merge_unfold in Hcap.
    rewrite !count_calls_app. lia.
Qed.

Lemma recommend_all_shape_prompts nb result evs :
  recommend_all_shape nb result (inr tt) evs →
  (model_calls evs).*1 = recommendation_prompt nb <$> result.
Proof.
  intros Hloop. remember (inr tt) as out eqn:Hout.
  induction Hloop as [|x rest e evs Hx|x rest evs out evs' Hx Hrest IH].
  - done.
  - done.
  - rewrite model_calls_app, fmap_app, (IH Hout), fmap_cons. clear IH Hrest.
    inversion Hx; subst; done.
Qed.

Lemma recommend_shape_no_search nb x out evs ev :
  recommend_shape nb x out evs → ev ∈ evs → is_search_call ev = false.
Proof.
  destruct 1; unfold timer_lines; simpl; intros; decompose_list_elem_of; by subst.
Qed.

Lemma recommend_all_shape_no_search nb result out evs ev :
  recommend_all_shape nb result out evs → ev ∈ evs → is_search_call ev = false.
Proof.
  induction 1 as [|x rest e evs Hx|x rest evs out evs' Hx Hrest IH].
  - by intros ?%elem_of_nil.
  - by eapply recommend_shape_no_search.
  - intros [Hin|Hin]%elem_of_app; [by eapply recommend_shape_no_search|by apply IH].
Qed.

Ltac find_event :=
  unfold timer_lines; simpl;
  repeat first [apply list_elem_of_here | apply list_elem_of_further].

(** X8. A run that ends normally has recommended exactly the merge of what
    the two searches returned: its model calls are the translation followed
    by the recommendation prompts of [merge 2 tsr r], in order, where [tsr]
    is the answer of its text search and [r] the answer of its vector
    search. *)
Theorem finished_search_recommends_the_merge (nb : notebook)
    (search_text : string) (w : env) :
  outcome (similarity_search nb search_text) w = inr tt →
  ∃ en res1 r tsr,
    find_text en (inr tsr) ∈ calls (similarity_search nb search_text) w
    ∧ aggregate res1 "euclidean" 2 (inr r) ∈ calls (similarity_search nb search_text) w
    ∧ (model_calls (calls (similarity_search nb search_text) w)).*1
      = (translate_instruction nb +:+ search_text)
        :: (recommendation_prompt nb <$> merge 2 tsr r).
Proof.
  intros Hdone.
  destruct (similarity_search_shaped nb search_text w)
    as [e' evs Hret|tsr r evs out evs' Hret Hloop]; [done|].
  subst out. inversion Hret as [| | | | |en res1 r' tsr' Hout Hevs]; subst.
  exists en, res1, r, tsr. split_and!.
  - apply elem_of_app. left. find_event.
  - apply elem_of_app. left. find_event.
  - rewrite model_calls_app, fmap_app, (recommend_all_shape_prompts _ _ _ Hloop).
    done.
Qed.

Lemma finished_search_recommends_the_merge_witness :
  ∃ en res1 r tsr,
    find_text en (inr tsr)
    ∈ calls (similarity_search notebook_en "Multiplayer Shooting Game") env_up
    ∧ aggregate res1 "euclidean" 2 (inr r)
      ∈ calls (similarity_search notebook_en "Multiplayer Shooting Game") env_up
    ∧ (model_calls
         (calls (similarity_search notebook_en "Multiplayer Shooting Game") env_up)).*1
      = (translate_instruction notebook_en +:+ "Multiplayer Shooting Game")
        :: (recommendation_prompt notebook_en <$> merge 2 tsr r).
Proof.
  apply (finished_search_recommends_the_merge notebook_en
           "Multiplayer Shooting Game" env_up).
  vm_compute. reflexivity.
Defined.

(** X9. The two searches are chained, not independent: the vector search
    is always run with the euclidean metric and k = 2 on the vector the
    embedding call returned; a text search is made only after the vector
    search has returned; an embedding is asked for only after the
    translation has returned a text. *)
Theorem search_calls_are_chained (nb : notebook) (search_text : string) (w : env) :
  (∀ v sim k o, aggregate v sim k o ∈ calls (similarity_search nb search_text) w →
                sim = "euclidean" ∧ k = 2
                ∧ embed_query search_text (inr v)
                  ∈ calls (similarity_search nb search_text) w)
  ∧ (∀ s o, find_text s o ∈ calls (similarity_search nb search_text) w →
            ∃ v r, aggregate v "euclidean" 2 (inr r)
                   ∈ calls (similarity_search nb search_text) w)
  ∧ (∀ text o, embed_query text o ∈ calls (similarity_search nb search_text) w →
               ∃ en, head (calls (similarity_search nb search_text) w)
                     = Some (invoke_model (translate_instruction nb +:+ search_text)
                               (inr (inr en)))).
Proof.
  assert (∀ out evs evs' result ev,
            recommend_all_shape nb result out evs' →
            ev ∈ evs ++ evs' → is_search_call ev = true → ev ∈ evs) as Hfront.
  { intros out evs evs' result ev Hloop [Hin|Hin]%elem_of_app Hsearch; [done|].
    rewrite (recommend_all_shape_no_search _ _ _ _ _ Hloop Hin) in Hsearch. done. }
  destruct (similarity_search_shaped nb search_text w)
    as [e' evs Hret|tsr r evs out evs' Hret Hloop].
  - split_and!; intros; revert select (_ ∈ _);
      inversion Hret; subst; unfold timer_lines; simpl; intros;
      decompose_list_elem_of; simplify_eq;
      try (split_and!; [done|done|]); repeat eexists; solve [find_event].
  - split_and!; intros; revert select (_ ∈ _); intros Hin;
      pose proof (Hfront _ _ _ _ _ Hloop Hin eq_refl) as Hin'; clear Hin; revert Hin';
      inversion Hret; subst; unfold timer_lines; simpl; intros;
      decompose_list_elem_of; simplify_eq;
      try (split_and!; [done|done|]); repeat eexists;
      solve [find_event].
Qed.

Lemma recommend_shape_images nb x out evs :
  recommend_shape nb x out evs →
  (∀ u o, requests_get u o ∈ evs ∨ imread u o ∈ evs →
          u = split_0 question_mark (url x))
  ∧ (∀ o, imread (split_0 question_mark (url x)) o ∈ evs →
          requests_get (split_0 question_mark (url x)) (inr tt) ∈ evs)
  ∧ (out = inr tt →
     requests_get (split_0 question_mark (url x)) (inr tt) ∈ evs
     ∧ imread (split_0 question_mark (url x)) (inr tt) ∈ evs).
Proof.
  destruct 1; unfold timer_lines; simpl; split_and!; try done;
    try (intros u o [Hin|Hin]; decompose_list_elem_of; by simplify_eq);
    try (intros o Hin; decompose_list_elem_of; simplify_eq; find_event);
    try (intros _; split; find_event).
Qed.

(** X10. One turn of the recommendation loop asks for the image at the
    candidate's url cut before its first question mark, and at no other
    address; [io.imread] is called only after [requests.get] on that address
    has returned, and a turn that ends normally has requested the image
    twice, once by each. *)
Theorem recommend_requests_the_image_twice (nb : notebook) (x : doc)
    (w : env) (t : list event) :
  ∃ evs,
    (recommend nb x w t).2 = t ++ evs
    ∧ (∀ u o, requests_get u o ∈ evs ∨ imread u o ∈ evs →
              u = split_0 question_mark (url x))
    ∧ (∀ o, imread (split_0 question_mark (url x)) o ∈ evs →
            requests_get (split_0 question_mark (url x)) (inr tt) ∈ evs)
    ∧ ((recommend nb x w t).1 = inr tt →
       requests_get (split_0 question_mark (url x)) (inr tt) ∈ evs
       ∧ imread (split_0 question_mark (url x)) (inr tt) ∈ evs).
Proof.
  destruct (recommend_shaped nb x w t) as (evs & Ht & Hshape).
  exists evs. split; [done|]. by apply (recommend_shape_images nb x).
Qed.

(** X11. [s.split(sep)[0]] is the part of [s] before its first [sep]: it
    holds no [sep], and what it leaves of [s] is empty or starts with
    [sep]. A url without a question mark is therefore kept whole. *)
Theorem split_0_is_the_part_before_sep (sep : Ascii.ascii) (s : string) :
  (∀ c, c ∈ String.list_ascii_of_string (split_0 sep s) → c ≠ sep)
  ∧ ∃ rest, s = split_0 sep s +:+ rest
            ∧ (rest = "" ∨ ∃ rest', rest = String sep rest').
Proof.
  induction s as [|c s [IHfree (rest & IHs & IHrest)]]; simpl.
  { split; [by intros c ?%elem_of_nil|]. exists "". split; [done|by left]. }
  destruct (Ascii.eqb_spec c sep) as [->|Hne]; simpl.
  - split; [by intros c ?%elem_of_nil|].
    exists (String sep s). split; [done|]. right. by exists s.
  - split.
    + intros c' [->|Hin]%elem_of_cons; [done|by apply IHfree].
    + exists rest. split; [|done].
      change (String c s = String c (split_0 sep s +:+ rest)). by f_equal.
Qed.

(** ** Loading the corpus *)

Lemma bind_run_I {A B} (m : I A) (f : A → I B) w db l :
  (m ≫= f) w db l = match m w db l with
                    | (inr a, l') => f a w db l'
                    | (inl e, l') => (inl e, l')
                    end.
Proof. done. Qed.

Lemma lift_generate_embeddings data w db l :
  lift (generate_embeddings data) w db l
  = (bedrock_embed_query w (bedrock_part l) data,
     l ++ [inl (embed_query data (bedrock_embed_query w (bedrock_part l) data))]).
Proof.
  unfold lift, generate_embeddings, call. simpl. by rewrite drop_app_length.
Qed.

Lemma store_shaped c x w db l :
  ∃ evs, (store c x w db l).2 = l ++ evs
         ∧ store_shape c x (store c x w db l).1 evs.
Proof.
  unfold store. rewrite bind_run_I, lift_generate_embeddings.
  destruct (bedrock_embed_query w _ _) as [e|vector].
  - eexists. split; [reflexivity|constructor].
  - rewrite bind_run_I. unfold db_call.
    destruct (docdb_insert_one db _ _) as [e|[]]; simpl; eexists;
      (split; [rewrite <- ?app_assoc; simpl; reflexivity|constructor]).
Qed.

Lemma store_all_shaped c results w db l :
  ∃ evs, (for_each_I results (λ x _, store c x) tt w db l).2 = l ++ evs
         ∧ store_all_shape c results
             (for_each_I results (λ x _, store c x) tt w db l).1 evs.
Proof.
  revert l. induction results as [|x rest IH]; intros l.
  { exists []. simpl. rewrite app_nil_r. split; [done|constructor]. }
  cbn [for_each_I]. rewrite bind_run_I.
  destruct (store_shaped c x w db l) as (evs & Hl & Hshape).
  destruct (store c x w db l) as [[e|[]] l'] eqn:Hx; simpl in Hl, Hshape; subst l'.
  - exists evs. split; [done|]. by constructor.
  - destruct (IH (l ++ evs)) as (evs' & Hl' & Hshape').
    exists (evs ++ evs'). rewrite Hl', <- app_assoc. split; [done|].
    by econstructor.
Qed.

Lemma ingest_shaped c results w db l :
  ∃ evs, (ingest c results w db l).2 = l ++ evs
         ∧ ingest_shape c results (ingest c results w db l).1 evs.
Proof.
  unfold ingest. rewrite bind_run_I.
  destruct (store_all_shaped c results w db l) as (evs & Hl & Hshape).
  destruct (for_each_I _ _ _ _ _ _) as [[e|[]] l'] eqn:Hloop;
    simpl in Hl, Hshape; subst l'.
  - exists evs. split; [done|]. by constructor.
  - unfold db_call. simpl. eexists. split; [by rewrite <- app_assoc|].
    by constructor.
Qed.

Lemma inserted_app l l' : inserted (l ++ l') = inserted l ++ inserted l'.
Proof. unfold inserted. by rewrite flat_map_app. Qed.

Lemma embedded_texts_app l l' :
  embedded_texts (l ++ l') = embedded_texts l ++ embedded_texts l'.
Proof. unfold embedded_texts. by rewrite flat_map_app. Qed.

(** What the loop has stored and asked to embed. *)
Lemma store_all_shape_stored c results out evs :
  store_all_shape c results out evs →
  ∃ vectors,
    inserted evs = zip_with (record_of c) results vectors
    ∧ length vectors ≤ length results
    ∧ (out = inr tt → length vectors = length results
                      ∧ embedded_texts evs = description1 <$> results)
    ∧ (∀ ev, ev ∈ evs → is_create_index ev = false)
    ∧ (∀ rec o, inr (insert_one rec o) ∈ evs →
                inl (embed_query (record.descriptions rec)
                       (inr (record.descriptions_embeddings rec))) ∈ evs).
Proof.
  induction 1 as [|x rest e evs Hx|x rest evs out evs' Hx Hrest IH].
  - exists []. split_and!; try done; intros; by decompose_list_elem_of.
  - exists []. inversion Hx; subst; simpl;
      (split_and!; [done|lia|done| |]); intros; decompose_list_elem_of;
      simplify_eq; try done; apply list_elem_of_here.
  - destruct IH as (vectors & Hins & Hlen & Hdone & Hnoix & Hemb).
    inversion Hx as [| |vector]; subst.
    exists (vector :: vectors). split_and!.
    + rewrite inserted_app, Hins. done.
    + simpl. lia.
    + intros Hout. destruct (Hdone Hout) as [Hl Ht]. split; [simpl; lia|].
      rewrite embedded_texts_app, Ht. done.
    + intros ev [Hin|Hin]%elem_of_app; [|by apply Hnoix].
      decompose_list_elem_of; by subst.
    + intros rec o [Hin|Hin]%elem_of_app.
      * decompose_list_elem_of; simplify_eq. apply list_elem_of_here.
      * apply elem_of_app. right. by eapply Hemb.
Qed.

(** X12. The ingestion stores the entries in order and keeps what it has
    stored: the records inserted are those of the first entries of
    [results], one per entry, each built from its entry; a run that ends
    normally has stored every entry; the index is asked for only once every
    entry is stored, as the last call, and it is the euclidean vector index
    on descriptions_embeddings. *)
Theorem ingest_stores_entries_in_order (c : corpus_cells)
    (results : list metadata.item) (w : env) (db : docdb) (l : list ingest_event) :
  ∃ evs vectors,
    (ingest c results w db l).2 = l ++ evs
    ∧ inserted evs = zip_with (record_of c) results vectors
    ∧ length vectors ≤ length results
    ∧ ((ingest c results w db l).1 = inr tt → length vectors = length results)
    ∧ (∀ ev, ev ∈ evs → is_create_index ev = true →
             length vectors = length results
             ∧ last evs = Some ev
             ∧ ∃ out, ev = inr (create_index embeddings_index out)).
Proof.
  destruct (ingest_shaped c results w db l) as (evs & Hl & Hshape).
  destruct Hshape as [e evs Hloop|out evs Hloop];
    destruct (store_all_shape_stored _ _ _ _ Hloop)
      as (vectors & Hins & Hlen & Hdone & Hnoix & _).
  - exists evs, vectors. split_and!; try done.
    intros ev Hin Hix. by rewrite (Hnoix _ Hin) in Hix.
  - destruct (Hdone eq_refl) as [Hall _].
    exists (evs ++ [inr (create_index embeddings_index out)]), vectors.
    split_and!; try done.
    + rewrite inserted_app, Hins. simpl. by rewrite app_nil_r.
    + intros ev [Hin|Hin%list_elem_of_singleton]%elem_of_app Hix.
      * by rewrite (Hnoix _ Hin) in Hix.
      * subst ev. split_and!; [done|by rewrite last_snoc|by exists out].
Qed.

(** X13. Every record the ingestion hands to [insert_one] carries as its
    descriptions_embeddings the vector that the embedding call returned for
    that record's own descriptions text, and a run that ends normally has
    asked to embed, in order, the descriptions of every entry joined with a
    blank. *)
Theorem ingest_embeds_what_it_stores (c : corpus_cells)
    (results : list metadata.item) (w : env) (db : docdb) (l : list ingest_event) :
  ∃ evs,
    (ingest c results w db l).2 = l ++ evs
    ∧ (∀ rec o, inr (insert_one rec o) ∈ evs →
                inl (embed_query (record.descriptions rec)
                       (inr (record.descriptions_embeddings rec))) ∈ evs)
    ∧ ((ingest c results w db l).1 = inr tt →
       embedded_texts evs
       = (λ x, join " " (default [] (metadata.descriptions x))) <$> results).
Proof.
  destruct (ingest_shaped c results w db l) as (evs & Hl & Hshape).
  destruct Hshape as [e evs Hloop|out evs Hloop];
    destruct (store_all_shape_stored _ _ _ _ Hloop)
      as (vectors & _ & _ & Hdone & _ & Hemb).
  - exists evs. split_and!; try done.
  - destruct (Hdone eq_refl) as [_ Htexts]. eexists. split_and!; [done| |].
    + intros rec o [Hin|Hin%list_elem_of_singleton]%elem_of_app; [|done].
      apply elem_of_app. left. by eapply Hemb.
    + intros _. rewrite embedded_texts_app, Htexts. simpl. by rewrite app_nil_r.
Qed.

Lemma names_of_records c results vectors :
  length vectors = length results →
  record.name <$> zip_with (record_of c) results vectors
  = metadata.name <$> results.
Proof.
  revert vectors. induction results as [|x rest IH]; intros [|v vectors] Hlen;
    simpl in *; try done. f_equal. apply IH. lia.
Qed.

(** X14. The ingestion never looks at what the collection holds: run twice
    over the same entries, with both runs ending normally, it has inserted two
    records for every entry, and the names stored are those of the entries
    followed by the same names again. *)
Theorem ingest_twice_stores_twice (c : corpus_cells)
    (results : list metadata.item) (w : env) (db : docdb) :
  ((ingest c results;; ingest c results) w db []).1 = inr tt →
  length (inserted ((ingest c results;; ingest c results) w db []).2)
  = 2 * length results
  ∧ record.name <$> inserted ((ingest c results;; ingest c results) w db []).2
    = (metadata.name <$> results) ++ (metadata.name <$> results).
Proof.
  rewrite bind_run_I.
  destruct (ingest_shaped c results w db []) as (evs & Hl & Hshape).
  destruct (ingest c results w db []) as [[e|[]] l'] eqn:Hfirst; [done|].
  simpl in Hl, Hshape. subst l'.
  destruct (ingest_shaped c results w db evs) as (evs' & Hl' & Hshape').
  destruct (ingest c results w db evs) as [[e|[]] l'] eqn:Hsecond; [done|].
  simpl in Hl', Hshape'. subst l'. intros _. simpl.
  inversion Hshape as [|out1 evs1 Hloop1]; subst.
  inversion Hshape' as [|out2 evs2 Hloop2]; subst.
  destruct (store_all_shape_stored _ _ _ _ Hloop1) as (v1 & Hins1 & _ & Hdone1 & _).
  destruct (store_all_shape_stored _ _ _ _ Hloop2) as (v2 & Hins2 & _ & Hdone2 & _).
  destruct (Hdone1 eq_refl) as [Hlen1 _]. destruct (Hdone2 eq_refl) as [Hlen2 _].
  rewrite !inserted_app, Hins1, Hins2. simpl. rewrite !app_nil_r.
  split.
  - rewrite length_app, !length_zip_with. lia.
  - rewrite fmap_app. by rewrite !names_of_records.
Qed.

Lemma ingest_twice_stores_twice_witness :
  length (inserted ((ingest cells_en sample_results;; ingest cells_en sample_results)
                      env_up db_up []).2) = 4.
Proof.
  apply (ingest_twice_stores_twice cells_en sample_results env_up db_up).
  vm_compute. reflexivity.
Defined.

(** X15. The first cell ends normally exactly when the metadata file
    opens, decodes, and holds at least one entry; it then returns every entry
    and the last thing it prints is the first entry. A file that decodes to
    an empty list makes the cell raise IndexError. *)
Theorem load_metadata_needs_an_entry (c : corpus_cells) (fs : file_system)
    (results : list metadata.item) :
  ((load_metadata c fs).1 = inr results
   ↔ ∃ text x rest, open_read fs (filename c) = inr text
                    ∧ json_load fs text = inr results
                    ∧ results = x :: rest)
  ∧ ((load_metadata c fs).1 = inr results →
     ∃ x, head results = Some x ∧ last (load_metadata c fs).2 = Some (printed_item x))
  ∧ (∀ text, open_read fs (filename c) = inr text → json_load fs text = inr [] →
             (load_metadata c fs).1 = inl (Raised "IndexError")).
Proof.
  unfold load_metadata. split_and!.
  - split.
    + destruct (open_read fs (filename c)) as [e|text]; [done|].
      destruct (json_load fs text) as [e|[|x rest]] eqn:Hload; try done.
      intros [= <-]. by exists text, x, rest.
    + intros (text & x & rest & -> & -> & ->). done.
  - destruct (open_read fs (filename c)) as [e|text]; [done|].
    destruct (json_load fs text) as [e|[|x rest]]; try done.
    intros [= <-]. exists x. split; [done|]. simpl. by rewrite last_snoc.
  - by intros text -> ->.
Qed.

Lemma load_metadata_needs_an_entry_witness :
  ∃ x, head sample_results = Some x
       ∧ last (load_metadata cells_en fs_with_file).2 = Some (printed_item x).
Proof.
  apply (load_metadata_needs_an_entry cells_en fs_with_file sample_results).
  reflexivity.
Defined.

(** X16. The "file not exits" message is never printed when the file that
    was opened still exists at the check: the check comes after [open], so a
    missing file ends the cell with the exception of [open] and with nothing
    printed. *)
Theorem load_metadata_never_reports_missing (c : corpus_cells) (fs : file_system)
    (s : string) :
  (∀ text, open_read fs (filename c) = inr text → path_exists fs (filename c) = true) →
  (printed_text s ∉ (load_metadata c fs).2)
  ∧ (∀ e, open_read fs (filename c) = inl e →
          load_metadata c fs = (inl e, [])).
Proof.
  intros Hthere. unfold load_metadata. split.
  - destruct (open_read fs (filename c)) as [e|text]; [by intros ?%elem_of_nil|].
    rewrite (Hthere text eq_refl). simpl.
    destruct (json_load fs text) as [e|[|x rest]]; simpl;
      intros Hin; by decompose_list_elem_of.
  - by intros e ->.
Qed.

Lemma load_metadata_never_reports_missing_witness :
  printed_text (missing_message cells_en) ∉ (load_metadata cells_en fs_with_file).2.
Proof.
  apply (load_metadata_never_reports_missing cells_en fs_with_file).
  intros text _. reflexivity.
Defined.
